(** * Window position reconciliation of [Window::MainWindow]

    A shallow embedding of the geometry code of
    [Telegram/SourceFiles/window/main_window.cpp]:
    [MainWindow::positionFromSettings], [MainWindow::countInitialGeometry],
    [MainWindow::screenNameChecksum] and [MainWindow::savePosition],
    together with the small part of Qt's value classes ([QPoint], [QRect],
    [QMargins], [QScreen]) that these functions go through; then of the
    code around it: the icon ([LogoVariant], [LoadLogo],
    [ConvertIconToBlack]), the tray ([hideNoQuit], [minimizeToTray],
    [handleStateChanged], [handleVisibleChanged]) and the layout
    ([updateControlsGeometry], [desktopRect], [maximalExtendBy],
    [canExtendNoMove], [tryToExtendWidthBy]). *)

From Stdlib Require Import ZArith List Bool String Ascii Lia.
From Stdlib Require Import Floats.SpecFloat.
Import ListNotations.

Local Open Scope Z_scope.

(** ** Machine integers

    C++ [int] and [int32] are 32-bit two's complement.  Values are kept in
    [Z]; every arithmetic operation of the source is followed by [wrap], the
    reduction into [[int_min, int_max]] that the compiled code performs. *)
Module Int32.

Definition int_min : Z := - 2 ^ 31.
Definition int_max : Z := 2 ^ 31 - 1.

Definition in_range (z : Z) : Prop := int_min <= z <= int_max.

Definition wrap (z : Z) : Z := (z + 2 ^ 31) mod 2 ^ 32 - 2 ^ 31.

Definition add (a b : Z) : Z := wrap (a + b).
Definition sub (a b : Z) : Z := wrap (a - b).
(** [a / b] of C++ truncates towards zero. *)
Definition div (a b : Z) : Z := wrap (Z.quot a b).
(** [qAbs]. *)
Definition abs (a : Z) : Z := if a >=? 0 then a else wrap (- a).
(** [std::max] on [int]. *)
Definition max (a b : Z) : Z := if a <? b then b else a.

End Int32.

(** The operators of the source, written [(a + b)%int]; their operands
    are read in the same scope, so that every operation of a compound
    expression wraps. *)
Declare Scope int_scope.
Delimit Scope int_scope with int.
Arguments Int32.add (a b)%_int.
Arguments Int32.sub (a b)%_int.
Arguments Int32.div (a b)%_int.
Arguments Int32.abs a%_int.
Arguments Int32.max (a b)%_int.
Infix "+" := Int32.add : int_scope.
Infix "-" := Int32.sub : int_scope.
Infix "/" := Int32.div : int_scope.

(** ** Double precision

    [float64] is IEEE 754 binary64, taken from the bit-exact specification
    of the Standard Library ([spec_float] with 53 bits of precision). *)
Module Float64.

Definition prec : Z := 53.
Definition emax : Z := 1024.

(** Conversion [int -> double]; exact, since 32 bits fit the mantissa. *)
Definition of_int (z : Z) : spec_float := binary_normalize prec emax z 0 false.

Definition mul : spec_float -> spec_float -> spec_float := SFmul prec emax.
Definition div : spec_float -> spec_float -> spec_float := SFdiv prec emax.

(** The integer part of a finite double, rounding towards zero. *)
Definition truncate (f : spec_float) : option Z :=
  match f with
  | S754_zero _ => Some 0
  | S754_finite s m e =>
      let magnitude :=
        if e >=? 0 then Zpos m * 2 ^ e else Zpos m / 2 ^ (- e) in
      Some (if s then - magnitude else magnitude)
  | S754_infinity _ | S754_nan => None
  end.

(** Conversion [double -> int] as the assignment [position.x *= factor]
    does it: truncation; a value that does not fit an [int] (or is not
    finite) has no defined result in C++, the model yields [int_min] there,
    as the x86 conversion instruction does. *)
Definition to_int (f : spec_float) : Z :=
  match truncate f with
  | Some z =>
      if (Int32.int_min <=? z) && (z <=? Int32.int_max) then z
      else Int32.int_min
  | None => Int32.int_min
  end.

End Float64.

(** ** Qt value classes *)
Module Qt.

Record QPoint := { xp : Z; yp : Z }.

(** [operator-(QPoint, QPoint)]. *)
Definition QPoint_sub (p q : QPoint) : QPoint :=
  {| xp := (xp p - xp q)%int; yp := (yp p - yp q)%int |}.

(** [QPoint::manhattanLength]. *)
Definition manhattanLength (p : QPoint) : Z :=
  (Int32.abs (xp p) + Int32.abs (yp p))%int.

(** A [QRect] stores its two corners, both inclusive. *)
Record QRect := { x1 : Z; y1 : Z; x2 : Z; y2 : Z }.

(** [QRect(left, top, width, height)]. *)
Definition mkQRect (left top width height : Z) : QRect :=
  {| x1 := left;
     y1 := top;
     x2 := ((left + width) - 1)%int;
     y2 := ((top + height) - 1)%int |}.

Definition x (r : QRect) : Z := x1 r.
Definition y (r : QRect) : Z := y1 r.
Definition width (r : QRect) : Z := ((x2 r - x1 r) + 1)%int.
Definition height (r : QRect) : Z := ((y2 r - y1 r) + 1)%int.

(** [QRect::center]: the sum is taken in 64 bits, the quotient truncates. *)
Definition center (r : QRect) : QPoint :=
  {| xp := Int32.wrap (Z.quot (x1 r + x2 r) 2);
     yp := Int32.wrap (Z.quot (y1 r + y2 r) 2) |}.

Record QMargins := { m_left : Z; m_top : Z; m_right : Z; m_bottom : Z }.

(** The default-constructed [QMargins()]. *)
Definition noMargins : QMargins :=
  {| m_left := 0; m_top := 0; m_right := 0; m_bottom := 0 |}.

(** [QRect::marginsRemoved]. *)
Definition marginsRemoved (r : QRect) (m : QMargins) : QRect :=
  {| x1 := (x1 r + m_left m)%int;
     y1 := (y1 r + m_top m)%int;
     x2 := (x2 r - m_right m)%int;
     y2 := (y2 r - m_bottom m)%int |}.

(** What the code reads of a [QScreen]; the name stands for its UTF-8
    bytes. *)
Record QScreen := {
  name : string;
  geometry : QRect;
  availableGeometry : QRect
}.

(** [Qt::WindowState]. *)
Inductive WindowState :=
| WindowNoState
| WindowMinimized
| WindowMaximized
| WindowFullScreen
| WindowActive.

Definition WindowState_eqb (a b : WindowState) : bool :=
  match a, b with
  | WindowNoState, WindowNoState
  | WindowMinimized, WindowMinimized
  | WindowMaximized, WindowMaximized
  | WindowFullScreen, WindowFullScreen
  | WindowActive, WindowActive => true
  | _, _ => false
  end.

End Qt.

(** ** The checksum of a monitor name *)
Module Crc32.

(** Modelled from the spec: [base::crc32] lives in [base/crc32hash.h],
    outside this file; the spec asks for a stable 32-bit checksum of the
    UTF-8 bytes and names CRC32.  This is the standard reflected CRC-32
    (polynomial [0xEDB88320]), used wherever a concrete checksum is
    needed; the window code itself takes the checksum as a parameter. *)
Definition step (crc : Z) : Z :=
  if Z.testbit crc 0
  then Z.lxor (Z.shiftr crc 1) 3988292384
  else Z.shiftr crc 1.

Definition update (crc : Z) (c : ascii) : Z :=
  let v := Z.lxor crc (Z.of_N (N_of_ascii c)) in
  step (step (step (step (step (step (step (step v))))))).

Fixpoint fold (crc : Z) (s : string) : Z :=
  match s with
  | EmptyString => crc
  | String c rest => fold (update crc c) rest
  end.

Definition crc32 (s : string) : Z :=
  Int32.wrap (Z.lxor (fold 4294967295 s) 4294967295).

End Crc32.

(** ** The main window *)
Module Window.
Import Qt.

(** [Core::WindowPosition], the persisted record. *)
Record WindowPosition := {
  moncrc : Z;
  maximized : Z;
  scale : Z;
  x : Z;
  y : Z;
  w : Z;
  h : Z
}.

(** The constants of the [st::] style sheet that the code reads. *)
Record Style := {
  windowMinWidth : Z;
  windowMinHeight : Z;
  windowDefaultWidth : Z;
  windowDefaultHeight : Z;
  windowBigDefaultWidth : Z;
  windowBigDefaultHeight : Z
}.

(** The ambient application: [QGuiApplication]'s screens, the global scale
    [cScale()], two settings and the checksum of [base::crc32]. *)
Record Application := {
  primaryScreen : option QScreen;
  screens : list QScreen;
  cScale : Z;
  ThirdColumnByDefault : bool;
  nativeWindowFrame : bool;
  crc32 : string -> Z
}.

(** The members and queries of the [MainWindow] object itself. *)
Record MainWindow := {
  windowGeometry : QRect;          (* geometry() *)
  frameGeometry : QRect;           (* frameGeometry() *)
  windowState : WindowState;       (* windowHandle()->windowState() *)
  isVisible : bool;
  positionInited : bool;
  bodyRect : QRect;                (* body()->mapToGlobal(body()->rect()) *)
  rightColumn : option Z           (* _rightColumn and its width() *)
}.

Definition setPositionInited (win : MainWindow) : MainWindow :=
  {| windowGeometry := windowGeometry win;
     frameGeometry := frameGeometry win;
     windowState := windowState win;
     isVisible := isVisible win;
     positionInited := true;
     bodyRect := bodyRect win;
     rightColumn := rightColumn win |}.

Definition screenNameChecksum (app : Application) (name : string) : Z :=
  crc32 app name.

(** *** [positionFromSettings] *)

(** [v *= scaleFactor] for an [int] [v] and a [float64] factor. *)
Definition mulAssign (v : Z) (scaleFactor : spec_float) : Z :=
  Float64.to_int (Float64.mul (Float64.of_int v) scaleFactor).

Definition positionFromSettings (app : Application)
    (position : WindowPosition) : WindowPosition :=
  if scale position =? 0 then position
  else
    let scaleFactor :=
      Float64.div (Float64.of_int (cScale app))
                  (Float64.of_int (scale position)) in
    {| moncrc := moncrc position;
       maximized := maximized position;
       scale := scale position;
       x := mulAssign (x position) scaleFactor;
       y := mulAssign (y position) scaleFactor;
       w := mulAssign (w position) scaleFactor;
       h := mulAssign (h position) scaleFactor |}.

(** *** [countInitialGeometry] *)

Definition primaryAvailable (st : Style) (app : Application) : QRect :=
  match primaryScreen app with
  | Some primary => availableGeometry primary
  | None => mkQRect 0 0 (windowDefaultWidth st) (windowDefaultHeight st)
  end.

Definition initialWidth (st : Style) (app : Application) : Z :=
  if ThirdColumnByDefault app then windowBigDefaultWidth st
  else windowDefaultWidth st.

Definition initialHeight (st : Style) (app : Application) : Z :=
  if ThirdColumnByDefault app then windowBigDefaultHeight st
  else windowDefaultHeight st.

(** The local [initial]: the default size centred in the available area of
    the primary screen. *)
Definition initial (st : Style) (app : Application) : QRect :=
  let pa := primaryAvailable st app in
  mkQRect
    (Qt.x pa + Int32.max ((width pa - initialWidth st app) / 2) 0)%int
    (Qt.y pa + Int32.max ((height pa - initialHeight st app) / 2) 0)%int
    (initialWidth st app)
    (initialHeight st app).

(** The loop over [QGuiApplication::screens()]: the first screen whose
    name has the saved checksum. *)
Definition findScreen (app : Application) (crc : Z) : option QScreen :=
  find (fun screen => crc =? screenNameChecksum app (name screen))
       (screens app).

(** The local [frame]. *)
Definition frame (app : Application) (win : MainWindow) : QMargins :=
  if negb (nativeWindowFrame app) then noMargins
  else
    let inner := windowGeometry win in
    let outer := frameGeometry win in
    {| m_left := (Qt.x inner - Qt.x outer)%int;
       m_top := (Qt.y inner - Qt.y outer)%int;
       m_right :=
         (((Qt.x outer + width outer) - Qt.x inner) - width inner)%int;
       m_bottom :=
         (((Qt.y outer + height outer) - Qt.y inner) - height inner)%int |}.

Definition spaceForInner (app : Application) (win : MainWindow)
    (screen : QScreen) : QRect :=
  marginsRemoved (availableGeometry screen) (frame app win).

(** The two symmetric blocks that bring the far edge back into the
    screen, on one axis: [pos], [len] are [position.x], [position.w] (or
    [y], [h]) and [lo], [size] the origin and extent of the space. *)
Definition fitFarEdge (pos len lo size : Z) : Z * Z :=
  let rightPoint := (pos + len)%int in
  let screenRightPoint := (lo + size)%int in
  if rightPoint >? screenRightPoint then
    let distance := (rightPoint - screenRightPoint)%int in
    let newXPos := (pos - distance)%int in
    if newXPos >=? lo then (newXPos, len)
    else
      let newRightPoint := (lo + len)%int in
      let newDistance := (newRightPoint - screenRightPoint)%int in
      (lo, (len - newDistance)%int)
  else (pos, len).

(** [position] after the clamping of lines 545-576, still relative to the
    screen: the result is [(x, y, w, h)]. *)
Definition clamped (position : WindowPosition) (x0 y0 w0 h0 : Z)
    : Z * Z * Z * Z :=
  let px := if x position <? x0 then x0 else x position in
  let py := if y position <? y0 then y0 else y position in
  let pw := if w position >? w0 then w0 else w position in
  let ph := if h position >? h0 then h0 else h position in
  let '(px, pw) := fitFarEdge px pw x0 w0 in
  let '(py, ph) := fitFarEdge py ph y0 h0 in
  (px, py, pw, ph).

(** The locals [x], [y], [w], [h] of lines 538-541: the space for the
    inner window, relative to the origin of the screen. *)
Definition usable (app : Application) (win : MainWindow)
    (screen : QScreen) : Z * Z * Z * Z :=
  let screenGeometry := geometry screen in
  let space := spaceForInner app win screen in
  ((Qt.x space - Qt.x screenGeometry)%int,
   (Qt.y space - Qt.y screenGeometry)%int,
   width space,
   height space).

(** [position] after lines 545-578: clamped into the usable space and
    moved to global coordinates. *)
Definition placed (app : Application) (win : MainWindow)
    (screen : QScreen) (position : WindowPosition) : Z * Z * Z * Z :=
  let '(x0, y0, w0, h0) := usable app win screen in
  let '(px, py, pw, ph) := clamped position x0 y0 w0 h0 in
  ((px + Qt.x (geometry screen))%int,
   (py + Qt.y (geometry screen))%int,
   pw,
   ph).

(** The test of lines 579-582: the minimal window put at [(px, py)] ends
    beyond the right or the bottom of the screen. *)
Definition minimalOverflows (st : Style) (screen : QScreen)
    (px py : Z) : bool :=
  let screenGeometry := geometry screen in
  ((px + windowMinWidth st)%int
     >? (Qt.x screenGeometry + width screenGeometry)%int)
  || ((py + windowMinHeight st)%int
        >? (Qt.y screenGeometry + height screenGeometry)%int).

Definition countInitialGeometry (st : Style) (app : Application)
    (win : MainWindow) (position : WindowPosition) : QRect :=
  if (w position =? 0) || (h position =? 0) then initial st app
  else
    match findScreen app (moncrc position) with
    | None => initial st app
    | Some screen =>
        let '(_, _, w0, h0) := usable app win screen in
        if (w0 <? windowMinWidth st) || (h0 <? windowMinHeight st)
        then initial st app
        else
          let '(px, py, pw, ph) := placed app win screen position in
          if minimalOverflows st screen px py then initial st app
          else mkQRect px py pw ph
    end.

(** [initGeometry]: [initGeometryFromSystem] is the answer of the
    platform hook of that name, [saved] the position that
    [positionFromSettings] reads from the settings; the result is the
    rectangle given to [setGeometry], if any.  The call of
    [updateMinimumSize] before the hook and the log line are left out:
    the minimum size of the widget is not part of the model. *)
Definition initGeometry (st : Style) (app : Application)
    (win : MainWindow) (initGeometryFromSystem : bool)
    (saved : WindowPosition) : option QRect :=
  if initGeometryFromSystem then None
  else Some (countInitialGeometry st app win
               (positionFromSettings app saved)).

(** *** [savePosition] *)

(** The calls that reach the settings store. *)
Inductive Effect :=
| SetWindowPosition (position : WindowPosition)
| SaveSettingsDelayed.

(** [Core::App()]: the stored window position and the trace of the calls
    made on the store, oldest first. *)
Record Core := {
  windowPosition : WindowPosition;
  trace : list Effect
}.

(** [delta] of line 714: from the centre of the screen to
    [(centerX, centerY)]. *)
Definition screenDelta (centerX centerY : Z) (screen : QScreen) : Z :=
  manhattanLength
    (QPoint_sub (center (geometry screen))
                {| xp := centerX; yp := centerY |}).

(** One round of the loop over the screens: [acc] is
    [(chosen, minDelta)]. *)
Definition nearer (centerX centerY : Z) (acc : option QScreen * Z)
    (screen : QScreen) : option QScreen * Z :=
  let '(chosen, minDelta) := acc in
  let delta := screenDelta centerX centerY screen in
  match chosen with
  | None => (Some screen, delta)
  | Some _ => if delta <? minDelta then (Some screen, delta) else acc
  end.

Definition chooseScreen (app : Application) (centerX centerY : Z)
    : option QScreen * Z :=
  fold_left (nearer centerX centerY) (screens app) (None, 0).

(** [realPosition.x], [.y], [.w], [.h] as lines 697-701 set them: the
    body of the window in global coordinates, without the right
    column. *)
Definition currentRect (win : MainWindow) : Z * Z * Z * Z :=
  let r := bodyRect win in
  (Qt.x r,
   Qt.y r,
   (width r - match rightColumn win with Some cw => cw | None => 0 end)%int,
   height r).

(** [(centerX, centerY)] of lines 708-709. *)
Definition currentCenter (win : MainWindow) : Z * Z :=
  let '(rx, ry, rw, rh) := currentRect win in
  ((rx + rw / 2)%int, (ry + rh / 2)%int).

(** The local [realPosition] of the non-maximized branch. *)
Definition normalPosition (app : Application) (win : MainWindow)
    : WindowPosition :=
  let '(rx, ry, rw, rh) := currentRect win in
  let '(centerX, centerY) := currentCenter win in
  match fst (chooseScreen app centerX centerY) with
  | Some chosen =>
      let screenGeometry := geometry chosen in
      {| moncrc := screenNameChecksum app (name chosen);
         maximized := 0;
         scale := cScale app;
         x := (rx - Qt.x screenGeometry)%int;
         y := (ry - Qt.y screenGeometry)%int;
         w := rw;
         h := rh |}
  | None =>
      {| moncrc := 0;
         maximized := 0;
         scale := cScale app;
         x := rx;
         y := ry;
         w := rw;
         h := rh |}
  end.

(** The local [realPosition] when the state is maximized. *)
Definition maximizedPosition (savedPosition : WindowPosition)
    : WindowPosition :=
  {| moncrc := moncrc savedPosition;
     maximized := 1;
     scale := scale savedPosition;
     x := x savedPosition;
     y := y savedPosition;
     w := w savedPosition;
     h := h savedPosition |}.

(** The state the function works with: [Qt::WindowActive] stands for
    "ask the window handle". *)
Definition effectiveState (win : MainWindow) (state : WindowState)
    : WindowState :=
  if WindowState_eqb state WindowActive then windowState win else state.

Definition realPosition (app : Application) (win : MainWindow)
    (state : WindowState) (savedPosition : WindowPosition)
    : WindowPosition :=
  if WindowState_eqb state WindowMaximized
  then maximizedPosition savedPosition
  else normalPosition app win.

(** The chain of [!=] of lines 733-739. *)
Definition differs (a b : WindowPosition) : bool :=
  negb (x a =? x b)
  || negb (y a =? y b)
  || negb (w a =? w b)
  || negb (h a =? h b)
  || negb (scale a =? scale b)
  || negb (moncrc a =? moncrc b)
  || negb (maximized a =? maximized b).

Definition savePosition (st : Style) (app : Application)
    (win : MainWindow) (state : WindowState) (core : Core) : Core :=
  let state := effectiveState win state in
  if WindowState_eqb state WindowMinimized
     || negb (isVisible win)
     || negb (positionInited win)
  then core
  else
    let savedPosition := windowPosition core in
    let realPosition := realPosition app win state savedPosition in
    if (w realPosition >=? windowMinWidth st)
       && (h realPosition >=? windowMinHeight st)
    then
      if differs realPosition savedPosition
      then {| windowPosition := realPosition;
              trace := trace core
                       ++ [SetWindowPosition realPosition;
                           SaveSettingsDelayed] |}
      else core
    else core.

(** The debounce timer calls [savePosition()] with the default argument. *)
Definition positionUpdatedTimerFired (st : Style) (app : Application)
    (win : MainWindow) (core : Core) : Core :=
  savePosition st app win WindowActive core.

End Window.

(** ** A sample desktop

    One monitor named "A" of 1920 x 1080 whose whole area is available,
    and sample sizes for the constants of the style sheet. *)
Module Scenario.
Import Qt Window.

Definition style : Style :=
  {| windowMinWidth := 380;
     windowMinHeight := 480;
     windowDefaultWidth := 800;
     windowDefaultHeight := 600;
     windowBigDefaultWidth := 1024;
     windowBigDefaultHeight := 768 |}.

Definition screenA : QScreen :=
  {| name := "A";
     geometry := mkQRect 0 0 1920 1080;
     availableGeometry := mkQRect 0 0 1920 1080 |}.

Definition app : Application :=
  {| primaryScreen := Some screenA;
     screens := [screenA];
     cScale := 100;
     ThirdColumnByDefault := false;
     nativeWindowFrame := false;
     crc32 := Crc32.crc32 |}.

(** A visible, initialised, unmaximized window showing at
    [(100, 80)] with a body of 900 x 700. *)
Definition window : MainWindow :=
  {| windowGeometry := mkQRect 100 80 900 700;
     frameGeometry := mkQRect 100 80 900 700;
     windowState := WindowNoState;
     isVisible := true;
     positionInited := true;
     bodyRect := mkQRect 100 80 900 700;
     rightColumn := None |}.

(** The same window once minimized, and once maximized. *)
Definition minimizedWindow : MainWindow :=
  {| windowGeometry := mkQRect 100 80 900 700;
     frameGeometry := mkQRect 100 80 900 700;
     windowState := WindowMinimized;
     isVisible := true;
     positionInited := true;
     bodyRect := mkQRect 100 80 900 700;
     rightColumn := None |}.

Definition maximizedWindow : MainWindow :=
  {| windowGeometry := mkQRect 0 0 1920 1080;
     frameGeometry := mkQRect 0 0 1920 1080;
     windowState := WindowMaximized;
     isVisible := true;
     positionInited := true;
     bodyRect := mkQRect 0 0 1920 1080;
     rightColumn := None |}.

Definition position (x y w h : Z) : WindowPosition :=
  {| moncrc := Crc32.crc32 "A";
     maximized := 0;
     scale := 100;
     x := x; y := y; w := w; h := h |}.

Definition core (saved : WindowPosition) : Core :=
  {| windowPosition := saved; trace := [] |}.

End Scenario.


(** ** The properties under study, in plain integers *)
Module Spec.
Import Qt Window.

(** The saved position cannot be reconciled with the current screens. *)
Definition unreconcilable (st : Style) (app : Application)
    (win : MainWindow) (position : WindowPosition) : Prop :=
  w position = 0
  \/ h position = 0
  \/ (forall screen, In screen (screens app) ->
        screenNameChecksum app (name screen) <> moncrc position)
  \/ (exists screen,
        findScreen app (moncrc position) = Some screen
        /\ (width (spaceForInner app win screen) < windowMinWidth st
            \/ height (spaceForInner app win screen) < windowMinHeight st)).

(** Coordinates far from the limits of [int]: no operation of the code
    wraps around on them. *)
Definition small (z : Z) : Prop := - 2 ^ 27 <= z <= 2 ^ 27.

(** The saved position, the usable space of the screen, its geometry and
    the minimal sizes are all [small]. *)
Definition moderate (st : Style) (app : Application) (win : MainWindow)
    (screen : QScreen) (position : WindowPosition) : Prop :=
  let '(x0, y0, w0, h0) := usable app win screen in
  (small (x position) /\ small (y position)
   /\ small (w position) /\ small (h position))
  /\ (small x0 /\ small y0 /\ small w0 /\ small h0)
  /\ (small (Qt.x (geometry screen)) /\ small (Qt.y (geometry screen))
      /\ small (width (geometry screen))
      /\ small (height (geometry screen)))
  /\ (small (windowMinWidth st) /\ small (windowMinHeight st)).

(** Step 8 of the reconciliation on one axis, as the specification words
    it: a rectangle [pos, pos + len) against the space [lo, lo + size). *)
Definition fitFarEdge (pos len lo size : Z) : Z * Z :=
  if pos + len >? lo + size then
    let overflow := pos + len - (lo + size) in
    if pos - overflow >=? lo then (pos - overflow, len)
    else (lo, len - (lo + len - (lo + size)))
  else (pos, len).

(** Steps 6 to 8 on one axis. *)
Definition fitAxis (pos len lo size : Z) : Z * Z :=
  fitFarEdge (Z.max pos lo) (Z.min len size) lo size.

(** The saved rectangle lies inside the usable space of the screen. *)
Definition insideUsable (app : Application) (win : MainWindow)
    (screen : QScreen) (position : WindowPosition) : Prop :=
  let '(x0, y0, w0, h0) := usable app win screen in
  x0 <= x position /\ x position + w position <= x0 + w0
  /\ y0 <= y position /\ y position + h position <= y0 + h0.

(** The minimal window put at the saved place stays on the screen. *)
Definition minimalFits (st : Style) (screen : QScreen)
    (position : WindowPosition) : Prop :=
  x position + windowMinWidth st <= width (geometry screen)
  /\ y position + windowMinHeight st <= height (geometry screen).

(** The saved rectangle in global coordinates. *)
Definition translated (screen : QScreen) (position : WindowPosition)
    : QRect :=
  mkQRect (x position + Qt.x (geometry screen))
          (y position + Qt.y (geometry screen))
          (w position) (h position).

(** The seven fields agree. *)
Definition sameFields (a b : WindowPosition) : Prop :=
  x a = x b /\ y a = y b /\ w a = w b /\ h a = h b
  /\ scale a = scale b /\ moncrc a = moncrc b
  /\ maximized a = maximized b.

(** The gate of lines 684-686 is closed. *)
Definition gated (win : MainWindow) (state : WindowState) : Prop :=
  state = WindowMinimized
  \/ (state = WindowActive /\ windowState win = WindowMinimized)
  \/ isVisible win = false
  \/ positionInited win = false.

(** The four corners of a rectangle are [small]. *)
Definition smallRect (r : QRect) : Prop :=
  small (x1 r) /\ small (y1 r) /\ small (x2 r) /\ small (y2 r).


(** The records written to the store along a trace. *)
Fixpoint written (t : list Effect) : list WindowPosition :=
  match t with
  | [] => []
  | SetWindowPosition p :: rest => p :: written rest
  | SaveSettingsDelayed :: rest => written rest
  end.

End Spec.

(** ** The application icon *)
Module Icon.

(** [uint32] arithmetic: every result is reduced modulo [2 ^ 32]. *)
Definition wrap (z : Z) : Z := z mod 2 ^ 32.
Definition add (a b : Z) : Z := wrap (a + b).
Definition sub (a b : Z) : Z := wrap (a - b).
Definition mul (a b : Z) : Z := wrap (a * b).
Definition lnot (a : Z) : Z := wrap (Z.lnot a).
Definition shiftl (a n : Z) : Z := wrap (Z.shiftl a n).

(** [LogoVariant]; the empty string stands for [QString()]. *)
Definition LogoVariant (variant : Z) : string :=
  match variant with
  | 1 => "_blue"
  | 2 => "_green"
  | 3 => "_orange"
  | 4 => "_red"
  | 5 => "_old"
  | _ => ""
  end.

(** The resource that [LoadLogo] and [LoadLogoNoMargin] read. *)
Definition LoadLogo (variant : Z) : string :=
  ":/gui/art/logo_256" ++ LogoVariant variant ++ ".png".

Definition LoadLogoNoMargin (variant : Z) : string :=
  ":/gui/art/logo_256_no_margin" ++ LogoVariant variant ++ ".png".

(** Conversion [double -> uint32] by truncation; as for [int], a value
    out of range has no defined result and the model yields 0. *)
Definition to_uint32 (f : spec_float) : Z :=
  match Float64.truncate f with
  | Some z => if (0 <=? z) && (z <? 2 ^ 32) then z else 0
  | None => 0
  end.

(** The constants of [ConvertIconToBlack].  A decimal literal is the
    double nearest to it, which is the correctly rounded quotient taken
    here. *)
Definition scale : spec_float :=
  Float64.div (Float64.of_int 255) (Float64.of_int 155).
Definition red : spec_float :=
  Float64.div (Float64.of_int 299) (Float64.of_int 1000).
Definition green : spec_float :=
  Float64.div (Float64.of_int 587) (Float64.of_int 1000).
Definition blue : spec_float :=
  Float64.div (Float64.of_int 114) (Float64.of_int 1000).
Definition shift : Z := Z.shiftl 1 24.

Definition shifter (value : spec_float) : Z :=
  to_uint32 (Float64.mul value (Float64.of_int shift)).

Definition iscale : Z := Eval vm_compute in shifter scale.
Definition ired : Z := Eval vm_compute in shifter red.
Definition igreen : Z := Eval vm_compute in shifter green.
Definition iblue : Z := Eval vm_compute in shifter blue.
Definition threshold : Z := 100.

(** The local [gray] of the loop body. *)
Definition grayOf (value : Z) : Z :=
  Z.shiftr
    (add (add (mul (Z.land (Z.shiftr value 16) 255) ired)
              (mul (Z.land (Z.shiftr value 8) 255) igreen))
         (mul (Z.land value 255) iblue))
    24.

(** The local [component], from [gray]. *)
Definition componentOf (gray : Z) : Z :=
  let small := sub gray threshold in
  let test := lnot small in
  let result := mul (mul (Z.shiftr test 31) small) iscale in
  Z.land (Z.shiftr result 24) 255.

(** The body of the inner loop: the new value of one pixel. *)
Definition blackPixel (value : Z) : Z :=
  let component := componentOf (grayOf value) in
  Z.lor (Z.lor (Z.lor (Z.land value 4278190080) (shiftl component 16))
               (shiftl component 8))
        component.

(** What the loop reads of a [QImage] in the format
    [Format_ARGB32_Premultiplied]: [bits()] as 32-bit words. *)
Record QImage := {
  width : Z;
  height : Z;
  bytesPerLine : Z;
  bits : list Z
}.

(** The word at the pointer [pixel] is replaced by its image under [f];
    a write
    outside the buffer has no defined result, the model leaves the buffer
    as it is. *)
Fixpoint store (pixel : Z) (f : Z -> Z) (data : list Z) : list Z :=
  match data with
  | [] => []
  | v :: rest =>
      if pixel =? 0 then f v :: rest
      else v :: store (pixel - 1) f rest
  end.

(** The inner loop over [i]: [count] pixels from [pixel] on; the result
    is the buffer and the advanced pointer. *)
Fixpoint convertLine (count : nat) (pixel : Z) (data : list Z)
    : list Z * Z :=
  match count with
  | O => (data, pixel)
  | S count' => convertLine count' (pixel + 1) (store pixel blackPixel data)
  end.

(** The outer loop over [j]. *)
Fixpoint convertLines (lines : nat) (width : nat) (intsPerLineAdded : Z)
    (pixel : Z) (data : list Z) : list Z :=
  match lines with
  | O => data
  | S lines' =>
      let '(data', pixel') := convertLine width pixel data in
      convertLines lines' width intsPerLineAdded
        (pixel' + intsPerLineAdded) data'
  end.

(** [ConvertIconToBlack] on an image that already has the format
    [Format_ARGB32_Premultiplied].  The two loops count up to [height] and
    [width]; a negative size, which no [QImage] has, is read as 0. *)
Definition ConvertIconToBlack (image : QImage) : QImage :=
  let intsPerLine := (bytesPerLine image / 4)%int in
  let intsPerLineAdded := (intsPerLine - width image)%int in
  {| width := width image;
     height := height image;
     bytesPerLine := bytesPerLine image;
     bits := convertLines (Z.to_nat (height image)) (Z.to_nat (width image))
               intsPerLineAdded 0 (bits image) |}.

End Icon.
(** ** Hiding to the tray and coming back *)
Module Tray.
Import Qt Window.

(** [Core::Settings::WorkMode]. *)
Inductive WorkMode := WindowAndTray | TrayOnly | WindowOnly.

(** The calls made on the window, its controller and the platform
    hooks, in order.  The hooks are virtual, their bodies are not in this
    file: they are recorded as calls ([stateChangedHook]) or left out
    ([handleVisibleChangedHook]). *)
Inductive Call :=
| StateChangedHook (state : WindowState)
| UpdateControlsGeometry
| UpdateIsActiveBlur
| UpdateIsActiveFocus
| UpdateNonIdle
| CloseWithoutDestroy
| UpdateGlobalMenu
| ShowTrayTooltip
| ShowChatsList.

(** What the tray code asks of its surroundings. *)
Record Shell := {
  quitting : bool;                 (* App::quitting() *)
  hasTrayIcon : bool;
  workMode : WorkMode;             (* Core::App().settings().workMode() *)
  IsMac : bool;                    (* Platform::IsMac() *)
  hasSessionController : bool      (* sessionController() != nullptr *)
}.

Definition minimizeToTray (sh : Shell) : bool * list Call :=
  if quitting sh || negb (hasTrayIcon sh) then (false, [])
  else (true,
        [CloseWithoutDestroy; UpdateIsActiveBlur; UpdateGlobalMenu;
         ShowTrayTooltip]).

(** The [if (const auto controller = sessionController())] blocks. *)
Definition showChatsList (sh : Shell) : list Call :=
  if hasSessionController sh then [ShowChatsList] else [].

Definition hideNoQuit (sh : Shell) : bool * list Call :=
  if quitting sh then (false, [])
  else
    match workMode sh with
    | TrayOnly | WindowAndTray =>
        let '(hidden, calls) := minimizeToTray sh in
        if hidden then (true, calls ++ showChatsList sh)
        else (false, calls)
    | WindowOnly =>
        if IsMac sh
        then (true,
              [CloseWithoutDestroy; UpdateIsActiveBlur; UpdateGlobalMenu]
              ++ showChatsList sh)
        else (false, [])
    end.

Definition WorkMode_eqb (a b : WorkMode) : bool :=
  match a, b with
  | WindowAndTray, WindowAndTray
  | TrayOnly, TrayOnly
  | WindowOnly, WindowOnly => true
  | _, _ => false
  end.

(** [handleStateChanged]: the calls it makes and the settings after its
    closing [savePosition(state)]. *)
Definition handleStateChanged (st : Style) (app : Application)
    (sh : Shell) (win : MainWindow) (state : WindowState) (core : Core)
    : list Call * Core :=
  let calls :=
    [StateChangedHook state; UpdateControlsGeometry]
    ++ (if WindowState_eqb state WindowMinimized
        then [UpdateIsActiveBlur] else [UpdateIsActiveFocus])
    ++ [UpdateNonIdle]
    ++ (if WindowState_eqb state WindowMinimized
           && WorkMode_eqb (workMode sh) TrayOnly
        then snd (minimizeToTray sh) else []) in
  (calls, savePosition st app win state core).

(** [setWindowState]. *)
Definition setWindowState (win : MainWindow) (state : WindowState)
    : MainWindow :=
  {| windowGeometry := windowGeometry win;
     frameGeometry := frameGeometry win;
     windowState := state;
     isVisible := isVisible win;
     positionInited := positionInited win;
     bodyRect := bodyRect win;
     rightColumn := rightColumn win |}.

(** [handleVisibleChanged] on the window and its member
    [_maximizedBeforeHide]. *)
Definition handleVisibleChanged (core : Core) (visible : bool)
    (win : MainWindow) (maximizedBeforeHide : bool) : MainWindow * bool :=
  if visible then
    if maximizedBeforeHide
    then (setWindowState win WindowMaximized, maximizedBeforeHide)
    else (win, maximizedBeforeHide)
  else (win, negb (maximized (windowPosition core) =? 0)).

End Tray.

(** ** Sizes and places inside the desktop *)
Module Layout.
Import Qt Window.

(** [std::min] and [base::accumulate_min] on [int]. *)
Definition min (a b : Z) : Z := if b <? a then b else a.
Definition accumulate_min (a b : Z) : Z := if a >? b then b else a.
Arguments min (a b)%_int.
Arguments accumulate_min (a b)%_int.

(** [maximalExtendBy]; the body is as wide as its global rectangle. *)
Definition maximalExtendBy (desktop : QRect) (win : MainWindow) : Z :=
  Int32.max (width desktop - width (bodyRect win))%int 0.

Definition canExtendNoMove (desktop : QRect) (win : MainWindow)
    (extendBy : Z) : bool :=
  let inner := bodyRect win in
  let innerRight := ((Qt.x inner + width inner) + extendBy)%int in
  let desktopRight := (Qt.x desktop + width desktop)%int in
  innerRight <=? desktopRight.

(** What [tryToExtendWidthBy] does to the window. *)
Inductive Resize :=
| SetGeometry (r : QRect)
| UpdateControlsGeometry.

Definition tryToExtendWidthBy (desktop : QRect) (win : MainWindow)
    (addToWidth : Z) : Z * Resize :=
  let inner := bodyRect win in
  let addToWidth :=
    accumulate_min addToWidth
      (Int32.max (width desktop - width inner)%int 0) in
  let newWidth := (width inner + addToWidth)%int in
  let newLeft :=
    min (Qt.x inner) ((Qt.x desktop + width desktop) - newWidth)%int in
  if negb (Qt.x inner =? newLeft) || negb (width inner =? newWidth)
  then (addToWidth,
        SetGeometry (mkQRect newLeft (Qt.y inner) newWidth (height inner)))
  else (addToWidth, UpdateControlsGeometry).

(** The geometries that [updateControlsGeometry] sets. *)
Record Controls := {
  titleShadowGeometry : option QRect;
  outdatedWidth : option Z;          (* resizeToWidth *)
  outdatedPlace : option (Z * Z);    (* moveToLeft *)
  rightColumnGeometry : option QRect;
  bodyGeometry : QRect
}.

(** [updateControlsGeometry]: [inner] is [body()->rect()],
    [outdatedHeight] the height of the outdated bar once resized. *)
Definition updateControlsGeometry (lineWidth : Z) (inner : QRect)
    (titleShadow : bool) (outdatedHeight : option Z)
    (rightColumn : option Z) : Controls :=
  let bodyLeft := Qt.x inner in
  let bodyTop := Qt.y inner in
  let bodyWidth := width inner in
  let shadow :=
    if titleShadow
    then Some (mkQRect (Qt.x inner) bodyTop (width inner) lineWidth)
    else None in
  let place :=
    match outdatedHeight with
    | Some _ => Some (Qt.x inner, bodyTop)
    | None => None
    end in
  let bodyTop :=
    match outdatedHeight with
    | Some oh => (bodyTop + oh)%int
    | None => bodyTop
    end in
  let bodyWidth :=
    match rightColumn with
    | Some cw => (bodyWidth - cw)%int
    | None => bodyWidth
    end in
  {| titleShadowGeometry := shadow;
     outdatedWidth :=
       match outdatedHeight with
       | Some _ => Some (width inner)
       | None => None
       end;
     outdatedPlace := place;
     rightColumnGeometry :=
       match rightColumn with
       | Some _ =>
           Some (mkQRect bodyWidth bodyTop
                   (width inner - bodyWidth)%int
                   (height inner - (bodyTop - Qt.y inner))%int)
       | None => None
       end;
     bodyGeometry :=
       mkQRect bodyLeft bodyTop bodyWidth
         (height inner - (bodyTop - Qt.y inner))%int |}.

(** [crl::time] is a 64-bit integer. *)
Definition wrap64 (z : Z) : Z := (z + 2 ^ 63) mod 2 ^ 64 - 2 ^ 63.

(** The members [_monitorLastGot] and [_monitorRect]. *)
Record Monitor := {
  monitorLastGot : Z;
  monitorRect : QRect
}.

(** [desktopRect] at the time [now], [computeDesktopRect] being what the
    desktop would answer at that time. *)
Definition desktopRect (now : Z) (computeDesktopRect : QRect)
    (m : Monitor) : QRect * Monitor :=
  if (monitorLastGot m =? 0)
     || (now >=? wrap64 (monitorLastGot m + 1000))
  then (computeDesktopRect,
        {| monitorLastGot := now; monitorRect := computeDesktopRect |})
  else (monitorRect m, m).

(** A run of calls of [desktopRect] at the given times, on a desktop
    whose rectangle at the time [t] is [desktop t]: the answers, oldest
    first. *)
Fixpoint desktopRects (desktop : Z -> QRect) (times : list Z)
    (m : Monitor) : list QRect :=
  match times with
  | [] => []
  | now :: rest =>
      let '(r, m') := desktopRect now (desktop now) m in
      r :: desktopRects desktop rest m'
  end.

End Layout.

(** ** Further properties, in plain integers *)
Module Props.
Import Qt Window.

(** Coordinates of which sums of four still are [small]. *)
Definition compact (z : Z) : Prop := - 2 ^ 25 <= z <= 2 ^ 25.

Definition compactRect (r : QRect) : Prop :=
  compact (x1 r) /\ compact (y1 r) /\ compact (x2 r) /\ compact (y2 r).

(** [f] applied to the words whose index satisfies [P], the first word
    of [data] having the index [k]. *)
Fixpoint mapAt (P : Z -> bool) (f : Z -> Z) (k : Z) (data : list Z)
    : list Z :=
  match data with
  | [] => []
  | v :: rest => (if P k then f v else v) :: mapAt P f (k + 1) rest
  end.

(** The word [i] belongs to one of the [lines] lines that start at
    [pixel], and is not padding. *)
Definition inLines (lines : nat) (width intsPerLine pixel i : Z) : bool :=
  (pixel <=? i) && (i <? pixel + Z.of_nat lines * intsPerLine)
  && ((i - pixel) mod intsPerLine <? width).

(** The integer part of what the comment of [ConvertIconToBlack] gives
    for the result, [(gray - 100 < 0) ? 0 : (gray - 100) * 255 / 155], at
    a whole gray level. *)
Definition documentedComponent (gray : Z) : Z :=
  if gray - 100 <? 0 then 0 else (gray - 100) * 255 / 155.

(** A run of [savePosition], one call for each state of the window. *)
Definition savePositions (st : Style) (app : Application)
    (events : list (MainWindow * WindowState)) (core : Core) : Core :=
  fold_left (fun c ev => savePosition st app (fst ev) (snd ev) c)
            events core.

(** On one axis, the stretch of length [len] at [pos] sits in the middle
    of the stretch of length [size] at [lo]: the margin after it is the
    margin before it, or one more. *)
Definition centred (lo size pos len : Z) : Prop :=
  0 <= (lo + size - (pos + len)) - (pos - lo) <= 1.

(** The double 1.0. *)
Definition one : spec_float := S754_finite false 4503599627370496 (-52).

(** The stored size is at least the minimal one. *)
Definition validSize (st : Style) (p : WindowPosition) : Prop :=
  windowMinWidth st <= w p /\ windowMinHeight st <= h p.

(** The times of a run never decrease and stay far from the limits of
    [crl::time]. *)
Fixpoint ascending (last : Z) (times : list Z) : Prop :=
  match times with
  | [] => True
  | t :: rest => last <= t /\ t < 2 ^ 62 /\ ascending t rest
  end.

(** The value [v] times the factor [c / s] in exact arithmetic, with the
    truncation towards zero of the conversion back to [int]. *)
Definition exactScaled (v c s : Z) : Z := Z.quot (v * c) s.

(** [r] is that value, or, only where [s] divides [v * c], the integer
    next to it on the side of zero. *)
Definition scaled (v c s r : Z) : Prop :=
  r = exactScaled v c s
  \/ (Z.rem (v * c) s = 0
      /\ r = exactScaled v c s - Z.sgn (exactScaled v c s)).

(** The saved value [v] is an [int], and so is its exact product with the
    factor of [positionFromSettings]. *)
Definition fits (app : Application) (position : WindowPosition) (v : Z)
    : Prop :=
  Int32.in_range v
  /\ Z.abs (v * cScale app) < 2 ^ 31 * Z.abs (scale position).

End Props.

(** ** A small desktop

    One monitor of 640 x 480, smaller than the default size of the
    window. *)
Module SmallDesktop.
Import Qt Window.

Definition screen : QScreen :=
  {| name := "S";
     geometry := mkQRect 0 0 640 480;
     availableGeometry := mkQRect 0 0 640 480 |}.

Definition app : Application :=
  {| primaryScreen := Some screen;
     screens := [screen];
     cScale := 100;
     ThirdColumnByDefault := false;
     nativeWindowFrame := false;
     crc32 := Crc32.crc32 |}.

End SmallDesktop.

(** ** A desktop at 150%

    The monitor "A" again, with the interface scaled to 150%, and
    positions that were saved at 110%. *)
Module HighDpi.
Import Qt Window.

Definition app : Application :=
  {| primaryScreen := Some Scenario.screenA;
     screens := [Scenario.screenA];
     cScale := 150;
     ThirdColumnByDefault := false;
     nativeWindowFrame := false;
     crc32 := Crc32.crc32 |}.

Definition position (x y w h : Z) : WindowPosition :=
  {| moncrc := Crc32.crc32 "A";
     maximized := 0;
     scale := 110;
     x := x; y := y; w := w; h := h |}.

End HighDpi.

Import Qt Window Spec.

(** ** Facts on machine integers *)
Section Int32Facts.

Lemma wrap_small (z : Z) : Int32.in_range z -> Int32.wrap z = z.
Proof.
  unfold Int32.in_range, Int32.int_min, Int32.int_max, Int32.wrap.
  intros Hz. rewrite Z.mod_small; lia.
Qed.

Lemma wrap_in_range (z : Z) : Int32.in_range (Int32.wrap z).
Proof.
  unfold Int32.in_range, Int32.int_min, Int32.int_max, Int32.wrap.
  pose proof (Z.mod_pos_bound (z + 2 ^ 31) (2 ^ 32)). lia.
Qed.

End Int32Facts.

(** Removes every [wrap] whose argument [lia] can bound. *)
Ltac unwrap :=
  unfold Int32.add, Int32.sub, Int32.div in *;
  repeat match goal with
    | |- context [Int32.wrap ?z] =>
        rewrite (wrap_small z)
          by (unfold Int32.in_range, Int32.int_min, Int32.int_max; lia)
    | H : context [Int32.wrap ?z] |- _ =>
        rewrite (wrap_small z) in H
          by (unfold Int32.in_range, Int32.int_min, Int32.int_max; lia)
    end.

(** ** The screen of a saved position *)
Section FindScreen.

Variable app : Application.

Lemma findScreen_none (crc : Z) :
  (forall screen, In screen (screens app) ->
     screenNameChecksum app (name screen) <> crc) ->
  findScreen app crc = None.
Proof.
  unfold findScreen. induction (screens app) as [|s rest IH]; intros Hno.
  - reflexivity.
  - simpl. destruct (Z.eqb_spec crc (screenNameChecksum app (name s))) as [E|_].
    + exfalso. apply (Hno s); [now left | now symmetry].
    + apply IH. intros s' Hin. apply Hno. now right.
Qed.

Lemma findScreen_some (crc : Z) (screen : QScreen) :
  findScreen app crc = Some screen ->
  In screen (screens app) /\ screenNameChecksum app (name screen) = crc.
Proof.
  unfold findScreen. intros Hfind. apply find_some in Hfind.
  destruct Hfind as [Hin Heq]. apply Z.eqb_eq in Heq. now split.
Qed.

End FindScreen.

(** ** The fallbacks of [countInitialGeometry] *)
Section Fallback.

Variables (st : Style) (app : Application) (win : MainWindow).

(** Each of the four early exits of [countInitialGeometry] yields the
    local [initial]. *)
Lemma countInitialGeometry_initial (position : WindowPosition) :
  unreconcilable st app win position ->
  countInitialGeometry st app win position = initial st app.
Proof.
  unfold countInitialGeometry, usable.
  intros [Hw | [Hh | [Hno | (screen & Hfind & Hsmall)]]].
  - rewrite Hw. reflexivity.
  - rewrite Hh, orb_true_r. reflexivity.
  - rewrite (findScreen_none _ _ Hno). now destruct (_ || _).
  - rewrite Hfind. destruct (_ || _); [reflexivity|].
    replace ((width (spaceForInner app win screen) <? windowMinWidth st)
             || (height (spaceForInner app win screen) <? windowMinHeight st))
      with true; [reflexivity|].
    symmetry. apply orb_true_iff.
    destruct Hsmall as [H|H]; [left|right]; now apply Z.ltb_lt.
Qed.


End Fallback.


(** ** Saving the position *)
Section SavePosition.

Variables (st : Style) (app : Application) (win : MainWindow).

Lemma differs_same (a : WindowPosition) : differs a a = false.
Proof. unfold differs. now rewrite !Z.eqb_refl. Qed.

Lemma differs_false (a b : WindowPosition) :
  sameFields a b -> differs a b = false.
Proof.
  unfold sameFields, differs. intros (Hx & Hy & Hw & Hh & Hs & Hm & Hz).
  rewrite Hx, Hy, Hw, Hh, Hs, Hm, Hz. now rewrite !Z.eqb_refl.
Qed.

Lemma maximizedPosition_twice (p : WindowPosition) :
  maximizedPosition (maximizedPosition p) = maximizedPosition p.
Proof. reflexivity. Qed.

(** What [realPosition] yields does not change when it is computed again
    from itself. *)
Lemma realPosition_stable (state : WindowState) (saved : WindowPosition) :
  realPosition app win state (realPosition app win state saved)
  = realPosition app win state saved.
Proof.
  unfold realPosition. destruct (WindowState_eqb state WindowMaximized).
  - apply maximizedPosition_twice.
  - reflexivity.
Qed.

Lemma written_app (t u : list Effect) :
  written (t ++ u) = written t ++ written u.
Proof.
  induction t as [|[p|] t IH]; simpl; [reflexivity| |assumption].
  now rewrite IH.
Qed.

Lemma effectiveState_gated (state : WindowState) :
  gated win state ->
  WindowState_eqb (effectiveState win state) WindowMinimized
  || negb (isVisible win) || negb (positionInited win) = true.
Proof.
  unfold gated, effectiveState.
  intros [Hs | [[Hs Hw] | [Hv | Hi]]].
  - rewrite Hs. reflexivity.
  - rewrite Hs. simpl. rewrite Hw. reflexivity.
  - rewrite Hv. simpl. now rewrite orb_true_r.
  - rewrite Hi. apply orb_true_r.
Qed.

(** [savePosition] either does nothing or, the gate being open and the
    computed record large enough, stores that record. *)
Lemma savePosition_cases (state : WindowState) (core : Core) :
  let real :=
    realPosition app win (effectiveState win state) (windowPosition core) in
  savePosition st app win state core = core
  \/ (WindowState_eqb (effectiveState win state) WindowMinimized
        || negb (isVisible win) || negb (positionInited win) = false
      /\ (w real >=? windowMinWidth st) && (h real >=? windowMinHeight st)
         = true
      /\ savePosition st app win state core
         = {| windowPosition := real;
              trace := trace core
                       ++ [SetWindowPosition real; SaveSettingsDelayed] |}).
Proof.
  intros real. unfold savePosition. fold real.
  destruct (_ || _); [now left|].
  destruct (_ && _); [|now left].
  destruct (differs _ _); [|now left].
  right. now repeat split.
Qed.

(** C6: when the state is minimized (given, or read from the window
    handle as the debounce timer does), or the window is not visible, or
    the position has not been initialised, [savePosition] leaves the stored
    position and the trace of the settings store as they are. *)
Theorem savePosition_gated (state : WindowState) (core : Core) :
  gated win state ->
  savePosition st app win state core = core.
Proof.
  intros Hgate. unfold savePosition.
  now rewrite (effectiveState_gated state Hgate).
Qed.

(** C7: with a maximized window, [savePosition] keeps the stored [x],
    [y], [w], [h], [scale] and [moncrc]: it either writes nothing or
    writes the stored record with its flag set to 1; and with the gate open
    and a stored size of the minimal size at least, the stored record
    afterwards is that flagged record, written to the store unless the
    flag was 1 already. *)
Theorem savePosition_maximized (state : WindowState) (core : Core) :
  effectiveState win state = WindowMaximized ->
  let saved := windowPosition core in
  let flagged :=
    {| moncrc := moncrc saved;
       maximized := 1;
       scale := scale saved;
       x := x saved;
       y := y saved;
       w := w saved;
       h := h saved |} in
  let core' := savePosition st app win state core in
  (x (windowPosition core') = x saved
   /\ y (windowPosition core') = y saved
   /\ w (windowPosition core') = w saved
   /\ h (windowPosition core') = h saved
   /\ scale (windowPosition core') = scale saved
   /\ moncrc (windowPosition core') = moncrc saved)
  /\ (core' = core
      \/ core' = {| windowPosition := flagged;
                    trace := trace core
                             ++ [SetWindowPosition flagged;
                                 SaveSettingsDelayed] |})
  /\ (isVisible win = true -> positionInited win = true ->
      windowMinWidth st <= w saved -> windowMinHeight st <= h saved ->
      windowPosition core' = flagged
      /\ (maximized saved <> 1 ->
          trace core'
          = trace core ++ [SetWindowPosition flagged; SaveSettingsDelayed])).
Proof.
  intros Hmax saved flagged core'. subst core'. unfold savePosition.
  rewrite Hmax. unfold realPosition. simpl WindowState_eqb. cbv iota zeta.
  change (maximizedPosition (windowPosition core)) with flagged.
  split; [|split].
  - destruct (_ || _); [now auto 10|].
    destruct (_ && _); [|now auto 10].
    destruct (differs _ _); now auto 10.
  - destruct (_ || _); [now left|].
    destruct (_ && _); [|now left].
    destruct (differs _ _); [now right | now left].
  - intros Hvis Hinit Hw Hh. rewrite Hvis, Hinit. cbn [negb orb].
    apply Z.geb_le in Hw, Hh. cbn [w h flagged]. fold saved.
    rewrite Hw, Hh. cbn [andb].
    destruct (differs flagged saved) eqn:Hdiff.
    + split; [reflexivity|]. intros _. reflexivity.
    + unfold differs in Hdiff.
      apply orb_false_iff in Hdiff. destruct Hdiff as [_ Hflag].
      apply negb_false_iff, Z.eqb_eq in Hflag. cbn in Hflag.
      split.
      * subst flagged saved. destruct (windowPosition core).
        cbn in *. now subst.
      * intros Hnot. congruence.
Qed.

(** C5: a second [savePosition] on the same window changes nothing, so it
    writes nothing; and whenever the computed record has the seven fields
    of the stored one, the store is not written. *)
Theorem savePosition_idempotent (state : WindowState) (core : Core) :
  savePosition st app win state (savePosition st app win state core)
  = savePosition st app win state core
  /\ (sameFields
        (realPosition app win (effectiveState win state)
                      (windowPosition core))
        (windowPosition core) ->
      savePosition st app win state core = core).
Proof.
  split.
  - destruct (savePosition_cases state core) as [Hsame | (Hgate & Hsize & Hnew)].
    + now rewrite !Hsame.
    + rewrite Hnew. unfold savePosition at 1. cbv zeta.
      cbn [windowPosition trace].
      rewrite Hgate, realPosition_stable, Hsize, differs_same. reflexivity.
  - intros Hsame. unfold savePosition.
    rewrite (differs_false _ _ Hsame).
    destruct (_ || _); [reflexivity|]. now destruct (_ && _).
Qed.

(** C10: every record that [savePosition] writes has at least the minimal
    width and height; a computed record below them is not written at all;
    so a maximized window whose stored size is below them does not even
    get its flag stored. *)
Theorem savePosition_minimal_size (state : WindowState) (core : Core) :
  let real :=
    realPosition app win (effectiveState win state) (windowPosition core) in
  let core' := savePosition st app win state core in
  (forall p, In p (written (trace core')) ->
     In p (written (trace core))
     \/ (windowMinWidth st <= w p /\ windowMinHeight st <= h p))
  /\ (w real < windowMinWidth st \/ h real < windowMinHeight st ->
      core' = core)
  /\ (effectiveState win state = WindowMaximized ->
      w (windowPosition core) < windowMinWidth st
      \/ h (windowPosition core) < windowMinHeight st ->
      core' = core).
Proof.
  intros real core'.
  assert (Hbelow : w real < windowMinWidth st \/ h real < windowMinHeight st
                   -> core' = core).
  { intros Hlow. subst core'. unfold savePosition. fold real.
    destruct (_ || _); [reflexivity|].
    replace ((w real >=? windowMinWidth st) && (h real >=? windowMinHeight st))
      with false; [reflexivity|].
    symmetry. apply andb_false_iff.
    destruct Hlow as [H|H]; [left|right];
      rewrite Z.geb_leb; apply Z.leb_gt; exact H. }
  split; [|split].
  - intros p. subst core'. unfold savePosition. fold real.
    destruct (_ || _); [now left|].
    destruct (_ && _) eqn:Hsize; [|now left].
    destruct (differs _ _); [|now left].
    cbn [trace]. rewrite written_app. intros Hin.
    apply in_app_or in Hin. destruct Hin as [Hin|Hin]; [now left|].
    right. simpl in Hin. destruct Hin as [<-|[]].
    apply andb_true_iff in Hsize. rewrite !Z.geb_leb in Hsize.
    destruct Hsize as [Hw Hh]. apply Z.leb_le in Hw, Hh. now split.
  - exact Hbelow.
  - intros Hmax Hlow. apply Hbelow. subst real. rewrite Hmax.
    unfold realPosition. simpl. exact Hlow.
Qed.

End SavePosition.

(** C6 on the sample desktop: the debounce timer fires on a minimized
    window. *)
Lemma savePosition_gated_witness :
  positionUpdatedTimerFired Scenario.style Scenario.app
    Scenario.minimizedWindow (Scenario.core (Scenario.position 0 0 0 0))
  = Scenario.core (Scenario.position 0 0 0 0).
Proof.
  unfold positionUpdatedTimerFired.
  apply savePosition_gated.
  right. left. split; reflexivity.
Defined.

(** C7 on the sample desktop: the window saved at [(100, 80)] with
    900 x 700 gets maximized; the flag is stored, the rest is kept. *)
Lemma savePosition_maximized_witness :
  let core := Scenario.core (Scenario.position 100 80 900 700) in
  let core' :=
    savePosition Scenario.style Scenario.app Scenario.maximizedWindow
      WindowActive core in
  let flagged :=
    {| moncrc := Crc32.crc32 "A"; maximized := 1; scale := 100;
       x := 100; y := 80; w := 900; h := 700 |} in
  windowPosition core' = flagged
  /\ trace core' = [SetWindowPosition flagged; SaveSettingsDelayed].
Proof.
  intros core core' flagged.
  destruct (savePosition_maximized Scenario.style Scenario.app
              Scenario.maximizedWindow WindowActive
              (Scenario.core (Scenario.position 100 80 900 700)) eq_refl)
    as (_ & _ & Hflag).
  destruct (Hflag eq_refl eq_refl) as [Hstored Hwritten].
  - vm_compute. discriminate.
  - vm_compute. discriminate.
  - split; [exact Hstored|]. apply Hwritten. vm_compute. discriminate.
Defined.

(** ** Bringing the saved rectangle back into the screen *)
Section Fit.

Ltac small_bounds :=
  unfold small in *; unfold Int32.in_range, Int32.int_min, Int32.int_max.

(** On coordinates that do not wrap, the two blocks of the code do what
    step 8 says. *)
Lemma fitFarEdge_spec (pos len lo size : Z) :
  small pos -> small len -> small lo -> small size ->
  Window.fitFarEdge pos len lo size = Spec.fitFarEdge pos len lo size.
Proof.
  intros Hp Hl Ho Hs. small_bounds.
  unfold Window.fitFarEdge, Spec.fitFarEdge, Int32.add, Int32.sub.
  rewrite (wrap_small (pos + len)) by (small_bounds; lia).
  rewrite (wrap_small (lo + size)) by (small_bounds; lia).
  rewrite (wrap_small (lo + len)) by (small_bounds; lia).
  rewrite (wrap_small (pos + len - (lo + size))) by (small_bounds; lia).
  rewrite (wrap_small (lo + len - (lo + size))) by (small_bounds; lia).
  rewrite (wrap_small (pos - (pos + len - (lo + size))))
    by (small_bounds; lia).
  rewrite (wrap_small (len - (lo + len - (lo + size))))
    by (small_bounds; lia).
  reflexivity.
Qed.

Lemma clamp_low (v lo : Z) : (if v <? lo then lo else v) = Z.max v lo.
Proof. destruct (Z.ltb_spec v lo); lia. Qed.

Lemma clamp_high (v hi : Z) : (if v >? hi then hi else v) = Z.min v hi.
Proof. rewrite Z.gtb_ltb. destruct (Z.ltb_spec hi v); lia. Qed.

(** Lines 545-576 as steps 6 to 8 on each axis. *)
Lemma clamped_spec (position : WindowPosition) (x0 y0 w0 h0 : Z) :
  small (x position) -> small (y position) ->
  small (w position) -> small (h position) ->
  small x0 -> small y0 -> small w0 -> small h0 ->
  clamped position x0 y0 w0 h0
  = (fst (fitAxis (x position) (w position) x0 w0),
     fst (fitAxis (y position) (h position) y0 h0),
     snd (fitAxis (x position) (w position) x0 w0),
     snd (fitAxis (y position) (h position) y0 h0)).
Proof.
  intros Hx Hy Hw Hh Hx0 Hy0 Hw0 Hh0.
  unfold clamped, fitAxis. rewrite !clamp_low, !clamp_high.
  rewrite !fitFarEdge_spec by (unfold small in *; lia).
  destruct (Spec.fitFarEdge (Z.max (x position) x0) _ _ _).
  destruct (Spec.fitFarEdge (Z.max (y position) y0) _ _ _).
  reflexivity.
Qed.

(** The fitted origin lies between the origin of the space and the
    clamped saved origin. *)
Lemma fitAxis_origin (pos len lo size : Z) :
  lo <= fst (fitAxis pos len lo size) <= Z.max pos lo.
Proof.
  unfold fitAxis, Spec.fitFarEdge.
  destruct (Z.gtb_spec (Z.max pos lo + Z.min len size) (lo + size));
    [|simpl; lia].
  destruct (Z.geb_spec
              (Z.max pos lo - (Z.max pos lo + Z.min len size - (lo + size)))
              lo); simpl; lia.
Qed.

(** After the clamping of step 7 the shift always stays inside the space:
    the length is never shrunk further. *)
Lemma fitAxis_length (pos len lo size : Z) :
  snd (fitAxis pos len lo size) = Z.min len size.
Proof.
  unfold fitAxis, Spec.fitFarEdge.
  destruct (Z.gtb_spec (Z.max pos lo + Z.min len size) (lo + size));
    [|reflexivity].
  destruct (Z.geb_spec
              (Z.max pos lo - (Z.max pos lo + Z.min len size - (lo + size)))
              lo); simpl; lia.
Qed.

(** A rectangle inside the space is left where it is. *)
Lemma fitAxis_inside (pos len lo size : Z) :
  lo <= pos -> pos + len <= lo + size ->
  fitAxis pos len lo size = (pos, len).
Proof.
  intros Hlo Hhi. unfold fitAxis, Spec.fitFarEdge.
  replace (Z.max pos lo) with pos by lia.
  replace (Z.min len size) with len by lia.
  destruct (Z.gtb_spec (pos + len) (lo + size)); [lia|reflexivity].
Qed.

Variables (st : Style) (app : Application) (win : MainWindow).

(** [countInitialGeometry] on a position that can be reconciled. *)
Lemma countInitialGeometry_reconciled
    (position : WindowPosition) (screen : QScreen)
    (x0 y0 w0 h0 : Z) :
  w position <> 0 -> h position <> 0 ->
  findScreen app (moncrc position) = Some screen ->
  usable app win screen = (x0, y0, w0, h0) ->
  moderate st app win screen position ->
  windowMinWidth st <= w0 -> windowMinHeight st <= h0 ->
  fst (fitAxis (x position) (w position) x0 w0) + windowMinWidth st
    <= width (geometry screen) ->
  fst (fitAxis (y position) (h position) y0 h0) + windowMinHeight st
    <= height (geometry screen) ->
  countInitialGeometry st app win position
  = mkQRect
      (fst (fitAxis (x position) (w position) x0 w0)
       + Qt.x (geometry screen))
      (fst (fitAxis (y position) (h position) y0 h0)
       + Qt.y (geometry screen))
      (snd (fitAxis (x position) (w position) x0 w0))
      (snd (fitAxis (y position) (h position) y0 h0)).
Proof.
  intros Hw Hh Hfind Husable Hmod Hminw Hminh Hfitx Hfity.
  unfold moderate in Hmod. rewrite Husable in Hmod.
  destruct Hmod as ((Hx & Hy & Hpw & Hph) & (Hx0 & Hy0 & Hw0 & Hh0)
                    & (Hsx & Hsy & Hsw & Hsh) & (Hmw & Hmh)).
  unfold countInitialGeometry.
  apply Z.eqb_neq in Hw, Hh. rewrite Hw, Hh. simpl orb.
  rewrite Hfind, Husable.
  apply Z.ltb_ge in Hminw, Hminh. rewrite Hminw, Hminh. simpl orb.
  apply Z.ltb_ge in Hminw, Hminh.
  unfold placed. rewrite Husable, clamped_spec by assumption.
  pose proof (fitAxis_origin (x position) (w position) x0 w0) as Box.
  pose proof (fitAxis_origin (y position) (h position) y0 h0) as Boy.
  set (px := fst (fitAxis (x position) (w position) x0 w0)) in *.
  set (py := fst (fitAxis (y position) (h position) y0 h0)) in *.
  unfold minimalOverflows, Int32.add.
  rewrite (wrap_small (px + Qt.x (geometry screen)))
    by (small_bounds; lia).
  rewrite (wrap_small (py + Qt.y (geometry screen)))
    by (small_bounds; lia).
  rewrite (wrap_small (px + Qt.x (geometry screen) + windowMinWidth st))
    by (small_bounds; lia).
  rewrite (wrap_small (py + Qt.y (geometry screen) + windowMinHeight st))
    by (small_bounds; lia).
  rewrite (wrap_small (Qt.x (geometry screen) + width (geometry screen)))
    by (small_bounds; lia).
  rewrite (wrap_small (Qt.y (geometry screen) + height (geometry screen)))
    by (small_bounds; lia).
  replace (px + Qt.x (geometry screen) + windowMinWidth st
           >? Qt.x (geometry screen) + width (geometry screen))
    with false by (symmetry; rewrite Z.gtb_ltb; apply Z.ltb_ge; lia).
  replace (py + Qt.y (geometry screen) + windowMinHeight st
           >? Qt.y (geometry screen) + height (geometry screen))
    with false by (symmetry; rewrite Z.gtb_ltb; apply Z.ltb_ge; lia).
  reflexivity.
Qed.

End Fit.

(** C2: on a position that can be reconciled, each axis of the result is
    the saved one after steps 6 to 8: when the far edge of the clamped
    rectangle passes the far edge of the usable space, the rectangle is
    moved back by the overflow if its near edge stays in the space, and
    otherwise put at the near edge and shortened by what still overflows;
    the outcome is then moved to global coordinates.  On the monitor "A"
    of 1920 x 1080 the position [(1800, 50, 400, 300)] gives
    [(1520, 50, 400, 300)]: see the witness. *)
Theorem countInitialGeometry_far_edge
    (st : Style) (app : Application) (win : MainWindow)
    (position : WindowPosition) (screen : QScreen) (x0 y0 w0 h0 : Z) :
  w position <> 0 -> h position <> 0 ->
  findScreen app (moncrc position) = Some screen ->
  usable app win screen = (x0, y0, w0, h0) ->
  moderate st app win screen position ->
  windowMinWidth st <= w0 -> windowMinHeight st <= h0 ->
  fst (fitAxis (x position) (w position) x0 w0) + windowMinWidth st
    <= width (geometry screen) ->
  fst (fitAxis (y position) (h position) y0 h0) + windowMinHeight st
    <= height (geometry screen) ->
  countInitialGeometry st app win position
  = mkQRect
      (fst (fitAxis (x position) (w position) x0 w0)
       + Qt.x (geometry screen))
      (fst (fitAxis (y position) (h position) y0 h0)
       + Qt.y (geometry screen))
      (snd (fitAxis (x position) (w position) x0 w0))
      (snd (fitAxis (y position) (h position) y0 h0)).
Proof.
  intros. now apply countInitialGeometry_reconciled.
Qed.

(** C2, the scenario of the specification: the right edge overflows by
    [1800 + 400 - 1920 = 280] and the rectangle moves left to 1520. *)
Lemma countInitialGeometry_far_edge_witness :
  countInitialGeometry Scenario.style Scenario.app Scenario.window
    (Scenario.position 1800 50 400 300)
  = mkQRect 1520 50 400 300.
Proof.
  rewrite (countInitialGeometry_far_edge Scenario.style Scenario.app
             Scenario.window (Scenario.position 1800 50 400 300)
             Scenario.screenA 0 0 1920 1080).
  - reflexivity.
  - vm_compute. discriminate.
  - vm_compute. discriminate.
  - reflexivity.
  - reflexivity.
  - vm_compute. repeat split; discriminate.
  - vm_compute. discriminate.
  - vm_compute. discriminate.
  - vm_compute. discriminate.
  - vm_compute. discriminate.
Defined.

(** C4, as amended: a saved position with non-zero width and height
    whose rectangle lies inside the usable space of its screen, that space
    having at least the minimal size and the minimal window put at the
    saved place staying on the screen, is returned as it is, moved to
    global coordinates. *)
Theorem countInitialGeometry_inside
    (st : Style) (app : Application) (win : MainWindow)
    (position : WindowPosition) (screen : QScreen) :
  w position <> 0 -> h position <> 0 ->
  findScreen app (moncrc position) = Some screen ->
  moderate st app win screen position ->
  windowMinWidth st <= width (spaceForInner app win screen) ->
  windowMinHeight st <= height (spaceForInner app win screen) ->
  insideUsable app win screen position ->
  minimalFits st screen position ->
  countInitialGeometry st app win position = translated screen position.
Proof.
  intros Hw Hh Hfind Hmod Hminw Hminh Hin [Hfx Hfy].
  unfold insideUsable in Hin.
  destruct (usable app win screen) as [[[x0 y0] w0] h0] eqn:Husable.
  assert (Hw0 : w0 = width (spaceForInner app win screen))
    by (unfold usable in Husable; congruence).
  assert (Hh0 : h0 = height (spaceForInner app win screen))
    by (unfold usable in Husable; congruence).
  destruct Hin as (Hx1 & Hx2 & Hy1 & Hy2).
  pose proof (fitAxis_inside (x position) (w position) x0 w0 Hx1 Hx2) as Fx.
  pose proof (fitAxis_inside (y position) (h position) y0 h0 Hy1 Hy2) as Fy.
  rewrite (countInitialGeometry_reconciled st app win position screen
             x0 y0 w0 h0); try assumption; try lia.
  - rewrite Fx, Fy. reflexivity.
  - rewrite Fx. simpl. lia.
  - rewrite Fy. simpl. lia.
Qed.

(** C4 on the sample desktop: a rectangle well inside the monitor. *)
Lemma countInitialGeometry_inside_witness :
  countInitialGeometry Scenario.style Scenario.app Scenario.window
    (Scenario.position 200 100 900 700)
  = mkQRect 200 100 900 700.
Proof.
  rewrite (countInitialGeometry_inside Scenario.style Scenario.app
             Scenario.window (Scenario.position 200 100 900 700)
             Scenario.screenA).
  - reflexivity.
  - vm_compute. discriminate.
  - vm_compute. discriminate.
  - reflexivity.
  - vm_compute. repeat split; discriminate.
  - vm_compute. discriminate.
  - vm_compute. discriminate.
  - vm_compute. repeat split; discriminate.
  - vm_compute. repeat split; discriminate.
Defined.

(** C4 as first stated fails: the rectangle [(1700, 50, 200, 300)] lies
    inside the usable space of "A", yet the minimal width of 380 put at
    1700 passes the right edge and the default rectangle is returned. *)
Lemma countInitialGeometry_inside_counterexample :
  let position := Scenario.position 1700 50 200 300 in
  findScreen Scenario.app (moncrc position) = Some Scenario.screenA
  /\ insideUsable Scenario.app Scenario.window Scenario.screenA position
  /\ countInitialGeometry Scenario.style Scenario.app Scenario.window
       position
     <> translated Scenario.screenA position.
Proof.
  split; [reflexivity|]. split.
  - vm_compute. repeat split; discriminate.
  - discriminate.
Qed.

(** ** The nearest screen *)
Section NearestScreen.

Lemma quot2_bounds (a : Z) : 2 * Z.quot a 2 - 1 <= a <= 2 * Z.quot a 2 + 1.
Proof.
  pose proof (Z.quot_rem' a 2) as E.
  pose proof (Z.rem_bound_abs a 2 ltac:(lia)). lia.
Qed.

Lemma quot2_nonneg (a : Z) :
  0 <= a -> 2 * Z.quot a 2 <= a <= 2 * Z.quot a 2 + 1.
Proof.
  intros Ha. pose proof (Z.quot_rem' a 2) as E.
  pose proof (Z.rem_bound_pos a 2 Ha ltac:(lia)). lia.
Qed.

Lemma differs_eq (a b : WindowPosition) : differs a b = false -> a = b.
Proof.
  unfold differs. intros H.
  repeat (apply orb_false_iff in H; destruct H as [H ?]).
  repeat match goal with
         | E : negb _ = false |- _ =>
             apply negb_false_iff, Z.eqb_eq in E
         end.
  destruct a, b. simpl in *. congruence.
Qed.

Variables (centerX centerY : Z).

Local Abbreviation delta := (screenDelta centerX centerY).




End NearestScreen.



(** ** The default rectangle *)

(** When the available area of the primary screen has room for the
    default size, [initial] has that size and sits in the middle of the
    area: the margins on both sides differ by one pixel at most. *)
Lemma initial_centred (st : Style) (app : Application) (area : QRect)
    (primary : QScreen) :
  primaryScreen app = Some primary ->
  availableGeometry primary = area ->
  smallRect area ->
  0 <= initialWidth st app <= width area ->
  0 <= initialHeight st app <= height area ->
  let r := initial st app in
  width r = initialWidth st app
  /\ height r = initialHeight st app
  /\ 0 <= (Qt.x area + width area - (Qt.x r + width r)) - (Qt.x r - Qt.x area)
     <= 1
  /\ 0 <= (Qt.y area + height area - (Qt.y r + height r))
          - (Qt.y r - Qt.y area)
     <= 1.
Proof.
  intros Hprimary Harea (Hx1 & Hy1 & Hx2 & Hy2) Hwidth Hheight r.
  subst r. unfold initial, primaryAvailable. rewrite Hprimary, Harea.
  assert (Hw : width area = x2 area - x1 area + 1)
    by (unfold width, small in *; unwrap; lia).
  assert (Hh : height area = y2 area - y1 area + 1)
    by (unfold height, small in *; unwrap; lia).
  set (iw := initialWidth st app) in *.
  set (ih := initialHeight st app) in *.
  pose proof (quot2_nonneg (width area - iw) ltac:(lia)) as Qw.
  pose proof (quot2_nonneg (height area - ih) ltac:(lia)) as Qh.
  set (wa := width area) in *. set (ha := height area) in *.
  unfold mkQRect, width, height, Qt.x, Qt.y.
  cbn [x1 y1 x2 y2]. unfold Int32.max, small in *.
  unfold Int32.add, Int32.sub, Int32.div.
  rewrite (wrap_small (wa - iw))
    by (unfold Int32.in_range, Int32.int_min, Int32.int_max; lia).
  rewrite (wrap_small (ha - ih))
    by (unfold Int32.in_range, Int32.int_min, Int32.int_max; lia).
  rewrite (wrap_small (Z.quot (wa - iw) 2))
    by (unfold Int32.in_range, Int32.int_min, Int32.int_max; lia).
  rewrite (wrap_small (Z.quot (ha - ih) 2))
    by (unfold Int32.in_range, Int32.int_min, Int32.int_max; lia).
  destruct (Z.ltb_spec (Z.quot (wa - iw) 2) 0); [lia|].
  destruct (Z.ltb_spec (Z.quot (ha - ih) 2) 0); [lia|].
  unwrap. lia.
Qed.

(** ** Rescaling the saved position *)

(** The scenario of the specification: a position saved at 150% and read
    at 100%. *)
Example positionFromSettings_150_to_100 :
  positionFromSettings Scenario.app
    {| moncrc := Crc32.crc32 "A"; maximized := 0; scale := 150;
       x := 300; y := 150; w := 1200; h := 900 |}
  = {| moncrc := Crc32.crc32 "A"; maximized := 0; scale := 150;
       x := 200; y := 100; w := 800; h := 600 |}.
Proof. vm_compute. reflexivity. Qed.

(** C5 on the sample desktop: the first save writes the record, the
    second one leaves the store as the first left it. *)
Lemma savePosition_idempotent_witness :
  let first :=
    savePosition Scenario.style Scenario.app Scenario.window WindowActive
      (Scenario.core (Scenario.position 0 0 0 0)) in
  List.length (written (trace first)) = 1%nat
  /\ savePosition Scenario.style Scenario.app Scenario.window WindowActive
       first
     = first.
Proof.
  split.
  - reflexivity.
  - apply (proj1 (savePosition_idempotent Scenario.style Scenario.app
                    Scenario.window WindowActive
                    (Scenario.core (Scenario.position 0 0 0 0)))).
Defined.

(** C10 on the sample desktop: the stored size 300 x 200 is below the
    minimal 380 x 480, the window gets maximized, nothing is stored. *)
Lemma savePosition_minimal_size_witness :
  savePosition Scenario.style Scenario.app Scenario.maximizedWindow
    WindowMaximized (Scenario.core (Scenario.position 100 80 300 200))
  = Scenario.core (Scenario.position 100 80 300 200).
Proof.
  apply (proj2 (proj2 (savePosition_minimal_size Scenario.style Scenario.app
                         Scenario.maximizedWindow WindowMaximized
                         (Scenario.core (Scenario.position 100 80 300 200))))).
  - reflexivity.
  - left. vm_compute. reflexivity.
Defined.

Import Props.

(** ** Facts on double precision *)
Section Float64Facts.

Lemma digits2_iter (p k : positive) :
  digits2_pos (Pos.iter xO p k) = (digits2_pos p + k)%positive.
Proof.
  induction k as [|k IH] using Pos.peano_ind.
  - simpl. lia.
  - rewrite Pos.iter_succ. simpl. rewrite IH. lia.
Qed.

Lemma Zpos_iter (p k : positive) :
  Zpos (Pos.iter xO p k) = Zpos p * 2 ^ Zpos k.
Proof.
  induction k as [|k IH] using Pos.peano_ind.
  - simpl. lia.
  - rewrite Pos.iter_succ, Pos2Z.inj_succ, Z.pow_succ_r by lia.
    rewrite Pos2Z.inj_xO, IH. lia.
Qed.

Lemma digits2_bounds (p : positive) :
  2 ^ (Zpos (digits2_pos p) - 1) <= Zpos p < 2 ^ Zpos (digits2_pos p).
Proof.
  induction p as [p IH|p IH|]; simpl digits2_pos.
  - rewrite Pos2Z.inj_succ, Z.pow_succ_r by lia.
    replace (Z.succ (Zpos (digits2_pos p)) - 1)
      with (Z.succ (Zpos (digits2_pos p) - 1)) by lia.
    rewrite Z.pow_succ_r by lia. lia.
  - rewrite Pos2Z.inj_succ, Z.pow_succ_r by lia.
    replace (Z.succ (Zpos (digits2_pos p)) - 1)
      with (Z.succ (Zpos (digits2_pos p) - 1)) by lia.
    rewrite Z.pow_succ_r by lia. lia.
  - simpl. lia.
Qed.

(** A canonical mantissa with an exponent in range is left as it is. *)
Lemma binary_round_aux_canonical (s : bool) (m : positive) (e : Z) :
  digits2_pos m = 53%positive -> -1074 <= e <= 971 ->
  binary_round_aux Float64.prec Float64.emax s (Zpos m) e loc_Exact
  = S754_finite s m e.
Proof.
  intros Hd He. unfold binary_round_aux, shr_fexp, Zdigits2.
  rewrite Hd. unfold fexp, emin, Float64.prec, Float64.emax.
  replace (Z.max (53 + e - 53) (3 - 1024 - 53) - e) with 0 by lia.
  cbn [shr shr_record_of_loc shr_m loc_of_shr_record round_nearest_even].
  unfold Zdigits2. rewrite Hd.
  replace (Z.max (53 + e - 53) (3 - 1024 - 53) - e) with 0 by lia.
  cbn [shr shr_record_of_loc shr_m].
  replace (e <=? 1024 - 53) with true by (symmetry; apply Z.leb_le; lia).
  reflexivity.
Qed.


(** [int -> double] on a non-zero value: the mantissa is the magnitude
    shifted up to 53 bits. *)
Lemma binary_round_small (s : bool) (p : positive) :
  Zpos p <= 2 ^ 31 ->
  exists k : positive,
    Zpos (digits2_pos p) + Zpos k = 53
    /\ binary_round Float64.prec Float64.emax s p 0
       = S754_finite s (Pos.iter xO p k) (- Zpos k).
Proof.
  intros Hp. pose proof (digits2_bounds p) as [Hlow _].
  assert (Hd : Zpos (digits2_pos p) <= 32).
  { destruct (Z_le_gt_dec (Zpos (digits2_pos p)) 32) as [H|H]; [exact H|].
    exfalso.
    assert (2 ^ 32 <= 2 ^ (Zpos (digits2_pos p) - 1))
      by (apply Z.pow_le_mono_r; lia).
    lia. }
  assert (Hk : exists k : positive, Zpos (digits2_pos p) + Zpos k = 53).
  { exists (Z.to_pos (53 - Zpos (digits2_pos p))). rewrite Z2Pos.id; lia. }
  destruct Hk as [k Hk]. exists k. split; [exact Hk|].
  unfold binary_round, shl_align, fexp, emin, Float64.prec, Float64.emax.
  replace (Z.max (Zpos (digits2_pos p) + 0 - 53) (3 - 1024 - 53) - 0)
    with (Zneg k) by lia.
  replace (Z.max (Zpos (digits2_pos p) + 0 - 53) (3 - 1024 - 53))
    with (- Zpos k) by lia.
  apply binary_round_aux_canonical; [|lia].
  rewrite digits2_iter. lia.
Qed.

Lemma iter_shr_52 (m : positive) :
  iter_pos shr_1 52
    {| shr_m := Zpos (m * 4503599627370496); shr_r := false; shr_s := false |}
  = {| shr_m := Zpos m; shr_r := false; shr_s := false |}.
Proof. rewrite Pos.mul_comm. cbn [Pos.mul]. reflexivity. Qed.

Lemma digits2_mul_52 (m : positive) :
  digits2_pos (m * 4503599627370496) = (digits2_pos m + 52)%positive.
Proof. rewrite Pos.mul_comm. cbn [Pos.mul digits2_pos]. lia. Qed.

(** Multiplying a double by 1.0 gives it back. *)
Lemma mul_one (s : bool) (m : positive) (e : Z) :
  digits2_pos m = 53%positive -> -1074 <= e <= 971 ->
  Float64.mul (S754_finite s m e) one = S754_finite s m e.
Proof.
  intros Hd He. unfold Float64.mul, one, SFmul.
  unfold binary_round_aux at 1. unfold shr_fexp at 1, Zdigits2 at 1.
  rewrite digits2_mul_52, Hd.
  unfold fexp, emin, Float64.prec, Float64.emax.
  replace (Z.max (Zpos (53 + 52) + (e + -52) - 53) (3 - 1024 - 53)
           - (e + -52)) with 52 by lia.
  cbn [shr shr_record_of_loc]. rewrite iter_shr_52.
  cbn [shr_m loc_of_shr_record round_nearest_even].
  unfold shr_fexp, Zdigits2. rewrite Hd. unfold fexp, emin.
  replace (Z.max (53 + (e + -52 + 52) - 53) (3 - 1024 - 53)
           - (e + -52 + 52)) with 0 by lia.
  cbn [shr shr_record_of_loc shr_m].
  replace (e + -52 + 52 <=? 1024 - 53) with true
    by (symmetry; apply Z.leb_le; lia).
  replace (e + -52 + 52) with e by lia.
  now destruct s.
Qed.

(** A double divided by itself is 1.0. *)
Lemma div_self (s : bool) (m : positive) (e : Z) :
  digits2_pos m = 53%positive ->
  Float64.div (S754_finite s m e) (S754_finite s m e) = one.
Proof.
  intros Hd. unfold Float64.div, SFdiv, SFdiv_core_binary, Zdigits2.
  rewrite Hd. unfold fexp, emin, Float64.prec, Float64.emax.
  replace (Z.min (Z.max (53 + e - (53 + e) - 53) (3 - 1024 - 53)) (e - e))
    with (-53) by lia.
  replace (e - e - -53) with 53 by lia.
  rewrite Z.shiftl_mul_pow2 by lia.
  destruct (Z.div_eucl (Zpos m * 2 ^ 53) (Zpos m)) as [q r] eqn:Hdiv.
  assert (Hq : q = 2 ^ 53).
  { change q with (fst (q, r)). rewrite <- Hdiv.
    change (fst (Z.div_eucl (Zpos m * 2 ^ 53) (Zpos m)))
      with (Zpos m * 2 ^ 53 / Zpos m).
    rewrite Z.mul_comm. apply Z.div_mul. lia. }
  assert (Hr : r = 0).
  { change r with (snd (q, r)). rewrite <- Hdiv.
    change (snd (Z.div_eucl (Zpos m * 2 ^ 53) (Zpos m)))
      with ((Zpos m * 2 ^ 53) mod Zpos m).
    rewrite Z.mul_comm. apply Z.mod_mul. lia. }
  subst q r.
  replace (new_location (Zpos m) 0) with loc_Exact.
  2:{ unfold new_location. destruct (Z.even (Zpos m)); reflexivity. }
  change (2 ^ 53) with 9007199254740992.
  destruct s; reflexivity.
Qed.


Lemma of_int_nonzero (z : Z) :
  z <> 0 -> Int32.in_range z ->
  exists (s : bool) (p k : positive),
    z = (if s then Zneg p else Zpos p)
    /\ Zpos (digits2_pos p) + Zpos k = 53
    /\ Float64.of_int z = S754_finite s (Pos.iter xO p k) (- Zpos k).
Proof.
  unfold Int32.in_range, Int32.int_min, Int32.int_max, Float64.of_int.
  intros Hz Hr. destruct z as [|p|p]; [congruence| |].
  - destruct (binary_round_small false p ltac:(lia)) as (k & Hk & E).
    exists false, p, k. now repeat split.
  - destruct (binary_round_small true p ltac:(lia)) as (k & Hk & E).
    exists true, p, k. now repeat split.
Qed.

Lemma to_int_of_int (z : Z) :
  Int32.in_range z -> Float64.to_int (Float64.of_int z) = z.
Proof.
  intros Hr. destruct (Z.eq_dec z 0) as [->|Hz]; [reflexivity|].
  destruct (of_int_nonzero z Hz Hr) as (s & p & k & Ez & Hk & E).
  rewrite E. unfold Float64.to_int, Float64.truncate.
  replace (- Zpos k >=? 0) with false by (symmetry; rewrite Z.geb_leb; apply Z.leb_gt; lia).
  rewrite Z.opp_involutive, Zpos_iter. rewrite Z.div_mul by lia.
  replace (if s then - Zpos p else Zpos p) with z by (now destruct s).
  unfold Int32.in_range in Hr.
  replace (Int32.int_min <=? z) with true by (symmetry; apply Z.leb_le; lia).
  replace (z <=? Int32.int_max) with true by (symmetry; apply Z.leb_le; lia).
  reflexivity.
Qed.

(** [v *= c / float64(c)] leaves [v] as it is. *)
Lemma mulAssign_same_scale (v c : Z) :
  Int32.in_range v -> Int32.in_range c -> c <> 0 ->
  mulAssign v (Float64.div (Float64.of_int c) (Float64.of_int c)) = v.
Proof.
  intros Hv Hc Hc0.
  destruct (of_int_nonzero c Hc0 Hc) as (s & p & k & _ & Hk & E).
  rewrite E, div_self by (rewrite digits2_iter; lia).
  unfold mulAssign. destruct (Z.eq_dec v 0) as [->|Hv0]; [reflexivity|].
  destruct (of_int_nonzero v Hv0 Hv) as (s' & p' & k' & _ & Hk' & E').
  rewrite <- (to_int_of_int v Hv) at 2. rewrite E'.
  rewrite mul_one; [reflexivity| |lia].
  rewrite digits2_iter. lia.
Qed.

End Float64Facts.
(** ** Restoring what was saved *)

(** X1: a position read at the scale it was saved at comes back
    unchanged: the factor is exactly 1.0 and the products are exact. *)
Theorem positionFromSettings_same_scale
    (app : Application) (position : WindowPosition) :
  scale position = cScale app ->
  Int32.in_range (cScale app) ->
  Int32.in_range (x position) -> Int32.in_range (y position) ->
  Int32.in_range (w position) -> Int32.in_range (h position) ->
  positionFromSettings app position = position.
Proof.
  intros Hscale Hc Hx Hy Hw Hh. unfold positionFromSettings.
  destruct (Z.eqb_spec (scale position) 0) as [_|Hnz]; [reflexivity|].
  rewrite <- Hscale in *.
  rewrite !mulAssign_same_scale by assumption.
  now destruct position.
Qed.

Lemma positionFromSettings_same_scale_witness :
  positionFromSettings Scenario.app (Scenario.position 100 80 900 700)
  = Scenario.position 100 80 900 700.
Proof.
  apply positionFromSettings_same_scale;
    try reflexivity; vm_compute; split; discriminate.
Defined.

Section SaveRestore.

Variables (st : Style) (app : Application).

(** With the gate open and a computed record of the minimal size at
    least, the stored position after [savePosition] is that record. *)
Lemma savePosition_stores (win : MainWindow) (state : WindowState)
    (core : Core) :
  effectiveState win state <> WindowMinimized ->
  isVisible win = true -> positionInited win = true ->
  validSize st
    (realPosition app win (effectiveState win state) (windowPosition core)) ->
  windowPosition (savePosition st app win state core)
  = realPosition app win (effectiveState win state) (windowPosition core).
Proof.
  intros Hmin Hvis Hinit [Hw Hh]. unfold savePosition. cbv zeta.
  rewrite Hvis, Hinit.
  replace (WindowState_eqb (effectiveState win state) WindowMinimized)
    with false by (destruct (effectiveState win state); simpl; congruence).
  cbn [negb orb].
  apply Z.geb_le in Hw, Hh. rewrite Hw, Hh. cbn [andb].
  destruct (differs _ _) eqn:Hdiff; [reflexivity|].
  symmetry. now apply differs_eq.
Qed.

(** The record of the non-maximized branch, once the loop has chosen
    its screen. *)
Lemma normalPosition_chosen (win : MainWindow) (chosen : QScreen)
    (rx ry rw rh : Z) :
  currentRect win = (rx, ry, rw, rh) ->
  fst (chooseScreen app (fst (currentCenter win)) (snd (currentCenter win)))
  = Some chosen ->
  normalPosition app win
  = {| moncrc := screenNameChecksum app (name chosen);
       maximized := 0;
       scale := cScale app;
       x := (rx - Qt.x (geometry chosen))%int;
       y := (ry - Qt.y (geometry chosen))%int;
       w := rw;
       h := rh |}.
Proof.
  intros Hrect Hchosen. unfold normalPosition. rewrite Hrect.
  destruct (currentCenter win) as [cx cy]. simpl in Hchosen.
  now rewrite Hchosen.
Qed.

Lemma width_compact (r : QRect) :
  compactRect r -> width r = x2 r - x1 r + 1.
Proof.
  unfold compactRect, compact. intros (? & ? & ? & ?).
  unfold width. unwrap. reflexivity.
Qed.

Lemma height_compact (r : QRect) :
  compactRect r -> height r = y2 r - y1 r + 1.
Proof.
  unfold compactRect, compact. intros (? & ? & ? & ?).
  unfold height. unwrap. reflexivity.
Qed.

(** X2: a window saved outside the maximized state comes back where it
    was, unless the system provides the geometry itself.  The screen
    [chosen] by [savePosition] must be the one that its checksum finds
    again, the scale must not have changed, and the saved rectangle (of the
    minimal size at least) must lie in the space usable on that screen,
    itself inside the screen: then [initGeometry] on the stored position
    sets the saved rectangle when [initGeometryFromSystem] answers no, and
    sets nothing when it answers yes. *)
Theorem initGeometry_savePosition
    (saving restoring : MainWindow) (state : WindowState) (core : Core)
    (chosen : QScreen) (rx ry rw rh : Z) (initGeometryFromSystem : bool) :
  effectiveState saving state <> WindowMinimized ->
  effectiveState saving state <> WindowMaximized ->
  isVisible saving = true -> positionInited saving = true ->
  currentRect saving = (rx, ry, rw, rh) ->
  fst (chooseScreen app (fst (currentCenter saving))
                        (snd (currentCenter saving))) = Some chosen ->
  findScreen app (screenNameChecksum app (name chosen)) = Some chosen ->
  Int32.in_range (cScale app) ->
  compact rx -> compact ry ->
  compactRect (geometry chosen) ->
  compactRect (spaceForInner app restoring chosen) ->
  0 < windowMinWidth st <= rw -> 0 < windowMinHeight st <= rh ->
  (let space := spaceForInner app restoring chosen in
   Qt.x space <= rx
   /\ rx + rw <= Qt.x space + width space
                <= Qt.x (geometry chosen) + width (geometry chosen)
   /\ Qt.y space <= ry
   /\ ry + rh <= Qt.y space + height space
                <= Qt.y (geometry chosen) + height (geometry chosen)) ->
  initGeometry st app restoring initGeometryFromSystem
    (windowPosition (savePosition st app saving state core))
  = if initGeometryFromSystem then None else Some (mkQRect rx ry rw rh).
Proof.
  intros Hmin Hmax Hvis Hinit Hrect Hchosen Hfind Hscale Hrx Hry
         Hgeo Hspace Hw Hh Hin.
  unfold initGeometry. destruct initGeometryFromSystem; [reflexivity|].
  f_equal.
  pose proof (width_compact _ Hgeo) as Wg.
  pose proof (height_compact _ Hgeo) as Hg.
  pose proof (width_compact _ Hspace) as Ws.
  pose proof (height_compact _ Hspace) as Hs.
  set (space := spaceForInner app restoring chosen) in *.
  cbv zeta in Hin. destruct Hin as (Hx1 & [Hx2 Hx3] & Hy1 & [Hy2 Hy3]).
  destruct Hgeo as (Gx1 & Gy1 & Gx2 & Gy2).
  destruct Hspace as (Sx1 & Sy1 & Sx2 & Sy2).
  unfold compact, Qt.x, Qt.y in *.
  assert (Hreal : realPosition app saving (effectiveState saving state)
                    (windowPosition core)
                  = {| moncrc := screenNameChecksum app (name chosen);
                       maximized := 0;
                       scale := cScale app;
                       x := rx - x1 (geometry chosen);
                       y := ry - y1 (geometry chosen);
                       w := rw;
                       h := rh |}).
  { unfold realPosition.
    replace (WindowState_eqb (effectiveState saving state) WindowMaximized)
      with false by (destruct (effectiveState saving state);
                     simpl; congruence).
    rewrite (normalPosition_chosen saving chosen rx ry rw rh Hrect Hchosen).
    unfold Qt.x, Qt.y. unwrap. reflexivity. }
  rewrite savePosition_stores; try assumption.
  2:{ rewrite Hreal. unfold validSize. simpl. lia. }
  rewrite Hreal.
  rewrite positionFromSettings_same_scale; try (simpl; reflexivity);
    try assumption;
    try (simpl; unfold Int32.in_range, Int32.int_min, Int32.int_max; lia).
  set (saved := {| moncrc := screenNameChecksum app (name chosen);
                   maximized := 0; scale := cScale app;
                   x := rx - x1 (geometry chosen);
                   y := ry - y1 (geometry chosen);
                   w := rw; h := rh |}).
  assert (Husable : usable app restoring chosen
                    = (x1 space - x1 (geometry chosen),
                       y1 space - y1 (geometry chosen),
                       width space, height space)).
  { unfold usable. fold space. unfold Qt.x, Qt.y. unwrap. reflexivity. }
  assert (Hfx : fitAxis (x saved) (w saved) (x1 space - x1 (geometry chosen))
                  (width space) = (x saved, w saved))
    by (apply fitAxis_inside; subst saved; cbn [x y w h]; lia).
  assert (Hfy : fitAxis (y saved) (h saved) (y1 space - y1 (geometry chosen))
                  (height space) = (y saved, h saved))
    by (apply fitAxis_inside; subst saved; cbn [x y w h]; lia).
  rewrite (countInitialGeometry_reconciled st app restoring saved chosen
             _ _ _ _ ltac:(subst saved; cbn [x y w h]; lia)
             ltac:(subst saved; cbn [x y w h]; lia) Hfind Husable).
  - rewrite Hfx, Hfy. subst saved. cbn [fst snd x y w h].
    unfold Qt.x, Qt.y. f_equal; lia.
  - unfold moderate. rewrite Husable. unfold small.
    subst saved. cbn [x y w h]. unfold Qt.x, Qt.y. lia.
  - lia.
  - lia.
  - rewrite Hfx. subst saved. cbn [fst x]. lia.
  - rewrite Hfy. subst saved. cbn [fst y]. lia.
Qed.

End SaveRestore.
(** ** The restored rectangle stays on its screen *)
Section Within.

Lemma fitAxis_within (pos len lo size : Z) :
  fst (fitAxis pos len lo size) + snd (fitAxis pos len lo size)
  <= lo + size.
Proof.
  unfold fitAxis, Spec.fitFarEdge.
  destruct (Z.gtb_spec (Z.max pos lo + Z.min len size) (lo + size));
    [|simpl; lia].
  destruct (Z.geb_spec
              (Z.max pos lo - (Z.max pos lo + Z.min len size - (lo + size)))
              lo); simpl; lia.
Qed.

Variables (st : Style) (app : Application) (win : MainWindow).

(** [placed] on coordinates that do not wrap. *)
Lemma placed_spec (position : WindowPosition) (screen : QScreen)
    (x0 y0 w0 h0 : Z) :
  usable app win screen = (x0, y0, w0, h0) ->
  moderate st app win screen position ->
  placed app win screen position
  = (fst (fitAxis (x position) (w position) x0 w0) + Qt.x (geometry screen),
     fst (fitAxis (y position) (h position) y0 h0) + Qt.y (geometry screen),
     snd (fitAxis (x position) (w position) x0 w0),
     snd (fitAxis (y position) (h position) y0 h0)).
Proof.
  intros Husable Hmod. unfold moderate in Hmod. rewrite Husable in Hmod.
  destruct Hmod as ((Hx & Hy & Hpw & Hph) & (Hx0 & Hy0 & Hw0 & Hh0)
                    & (Hsx & Hsy & Hsw & Hsh) & _).
  unfold placed. rewrite Husable, clamped_spec by assumption.
  pose proof (fitAxis_origin (x position) (w position) x0 w0).
  pose proof (fitAxis_origin (y position) (h position) y0 h0).
  unfold small in *. unwrap. reflexivity.
Qed.

(** X3: whatever the saved position, the result of
    [countInitialGeometry] on its screen is the default rectangle or a
    rectangle inside the usable space of that screen, no larger than the
    saved one, at which even the minimal window stays on the screen. *)
Theorem countInitialGeometry_within
    (position : WindowPosition) (screen : QScreen) (x0 y0 w0 h0 : Z) :
  findScreen app (moncrc position) = Some screen ->
  usable app win screen = (x0, y0, w0, h0) ->
  moderate st app win screen position ->
  countInitialGeometry st app win position = initial st app
  \/ exists px py pw ph : Z,
       countInitialGeometry st app win position
       = mkQRect (px + Qt.x (geometry screen)) (py + Qt.y (geometry screen))
                 pw ph
       /\ (x0 <= px /\ px + pw <= x0 + w0)
       /\ (y0 <= py /\ py + ph <= y0 + h0)
       /\ (pw = Z.min (w position) w0 /\ ph = Z.min (h position) h0)
       /\ (px + windowMinWidth st <= width (geometry screen)
           /\ py + windowMinHeight st <= height (geometry screen)).
Proof.
  intros Hfind Husable Hmod. unfold countInitialGeometry.
  destruct (_ || _); [now left|]. rewrite Hfind, Husable.
  destruct (_ || _); [now left|].
  rewrite (placed_spec position screen x0 y0 w0 h0 Husable Hmod).
  pose proof (fitAxis_origin (x position) (w position) x0 w0) as Ox.
  pose proof (fitAxis_origin (y position) (h position) y0 h0) as Oy.
  pose proof (fitAxis_within (x position) (w position) x0 w0) as Wx.
  pose proof (fitAxis_within (y position) (h position) y0 h0) as Wy.
  pose proof (fitAxis_length (x position) (w position) x0 w0) as Lx.
  pose proof (fitAxis_length (y position) (h position) y0 h0) as Ly.
  set (px := fst (fitAxis (x position) (w position) x0 w0)) in *.
  set (py := fst (fitAxis (y position) (h position) y0 h0)) in *.
  set (pw := snd (fitAxis (x position) (w position) x0 w0)) in *.
  set (ph := snd (fitAxis (y position) (h position) y0 h0)) in *.
  destruct (minimalOverflows st screen _ _) eqn:Hover; [now left|].
  right. exists px, py, pw, ph. split; [reflexivity|].
  repeat split; try lia.
  - unfold moderate in Hmod. rewrite Husable in Hmod.
    destruct Hmod as ((Hx & Hy & _) & (Hx0 & Hy0 & _)
                      & (Hsx & Hsy & Hsw & Hsh) & (Hmw & Hmh)).
    unfold minimalOverflows in Hover. apply orb_false_iff in Hover.
    destruct Hover as [Hover _]. rewrite Z.gtb_ltb in Hover.
    apply Z.ltb_ge in Hover. unfold small in *. unwrap. lia.
  - unfold moderate in Hmod. rewrite Husable in Hmod.
    destruct Hmod as ((Hx & Hy & _) & (Hx0 & Hy0 & _)
                      & (Hsx & Hsy & Hsw & Hsh) & (Hmw & Hmh)).
    unfold minimalOverflows in Hover. apply orb_false_iff in Hover.
    destruct Hover as [_ Hover]. rewrite Z.gtb_ltb in Hover.
    apply Z.ltb_ge in Hover. unfold small in *. unwrap. lia.
Qed.

End Within.

(** ** Runs of [savePosition] *)
Section Runs.

Variables (st : Style) (app : Application).

(** X4: along any run of [savePosition], a stored size that is at least
    the minimal one stays so, the trace of the store only grows, and every
    record added to it has at least the minimal size. *)
Theorem savePositions_valid
    (events : list (MainWindow * WindowState)) (core : Core) :
  validSize st (windowPosition core) ->
  validSize st (windowPosition (savePositions st app events core))
  /\ (exists added,
        trace (savePositions st app events core) = trace core ++ added
        /\ Forall (validSize st) (written added)).
Proof.
  unfold savePositions. revert core.
  induction events as [|[win state] events IH]; intros core Hvalid.
  - simpl. split; [exact Hvalid|]. exists []. rewrite app_nil_r.
    split; [reflexivity | constructor].
  - cbn [fold_left fst snd].
    destruct (savePosition_cases st app win state core)
      as [Hsame | (_ & Hsize & Hnew)].
    + rewrite Hsame. now apply IH.
    + apply andb_true_iff in Hsize. rewrite !Z.geb_leb in Hsize.
      destruct Hsize as [Hw Hh]. apply Z.leb_le in Hw, Hh.
      rewrite Hnew.
      destruct (IH {| windowPosition :=
                        realPosition app win (effectiveState win state)
                          (windowPosition core);
                      trace :=
                        trace core
                        ++ [SetWindowPosition
                              (realPosition app win
                                 (effectiveState win state)
                                 (windowPosition core));
                            SaveSettingsDelayed] |})
        as (Hv & added & Htrace & Hall); [now split|].
      split; [exact Hv|].
      cbn [trace] in Htrace. rewrite <- app_assoc in Htrace.
      eexists. split; [exact Htrace|].
      rewrite written_app. apply Forall_app. split; [|exact Hall].
      simpl. constructor; [now split | constructor].
Qed.

End Runs.

(** ** Ties between screens *)
Section Ties.

Variables (centerX centerY : Z).

Local Abbreviation delta := (screenDelta centerX centerY).

(** [c] is the first screen of least [delta] in [seen]. *)
Local Abbreviation firstLeast seen c :=
  (exists before after,
     seen = before ++ c :: after
     /\ (forall s, In s before -> delta c < delta s)
     /\ (forall s, In s after -> delta c <= delta s)).

Lemma nearer_fold_first (l : list QScreen) :
  forall (seen : list QScreen) (c : QScreen),
  firstLeast seen c ->
  exists c',
    fold_left (nearer centerX centerY) l (Some c, delta c)
    = (Some c', delta c')
    /\ firstLeast (seen ++ l) c'.
Proof.
  induction l as [|n l IH]; intros seen c Hinv.
  - exists c. rewrite app_nil_r. now split.
  - cbn [fold_left]. unfold nearer at 2.
    destruct Hinv as (before & after & Hseen & Hb & Ha).
    replace (seen ++ n :: l) with ((seen ++ [n]) ++ l)
      by (rewrite <- app_assoc; reflexivity).
    destruct (Z.ltb_spec (delta n) (delta c)) as [Hlt|Hge].
    + apply IH. exists seen, []. split; [reflexivity|]. split.
      * intros s Hs. rewrite Hseen in Hs. apply in_app_or in Hs.
        destruct Hs as [Hs|[<-|Hs]].
        -- specialize (Hb s Hs). lia.
        -- exact Hlt.
        -- specialize (Ha s Hs). lia.
      * intros s [].
    + apply IH. exists before, (after ++ [n]). split.
      * rewrite Hseen, <- app_assoc. reflexivity.
      * split; [exact Hb|]. intros s Hs. apply in_app_or in Hs.
        destruct Hs as [Hs|[<-|[]]]; [now apply Ha | exact Hge].
Qed.

(** X5: the screen chosen by the loop of [savePosition] is the first
    one, in the order of enumeration, at the least distance: the screens
    before it are strictly farther, those after it are not nearer.  No
    screen is chosen only when none is enumerated. *)
Theorem chooseScreen_first (app : Application) :
  (screens app = [] <-> fst (chooseScreen app centerX centerY) = None)
  /\ forall chosen,
       fst (chooseScreen app centerX centerY) = Some chosen ->
       exists before after,
         screens app = before ++ chosen :: after
         /\ (forall s, In s before -> delta chosen < delta s)
         /\ (forall s, In s after -> delta chosen <= delta s).
Proof.
  unfold chooseScreen. destruct (screens app) as [|a l].
  - split; [now split|]. simpl. discriminate.
  - destruct (nearer_fold_first l [a] a) as (c' & Hfold & Hinv).
    { exists [], []. split; [reflexivity|]. split; intros s []. }
    assert (E : fold_left (nearer centerX centerY) (a :: l) (None, 0)
                = (Some c', delta c')) by exact Hfold.
    rewrite E. split.
    + split; discriminate.
    + intros chosen Heq. simpl in Heq. inversion Heq. subst. exact Hinv.
Qed.

End Ties.
(** ** Widening the window *)
Section Extend.
Import Layout.

Lemma Int32_max_spec (a b : Z) : Int32.max a b = Z.max a b.
Proof. unfold Int32.max. destruct (Z.ltb_spec a b); lia. Qed.

Lemma min_spec (a b : Z) : Layout.min a b = Z.min a b.
Proof. unfold Layout.min. destruct (Z.ltb_spec b a); lia. Qed.

Lemma accumulate_min_spec (a b : Z) : accumulate_min a b = Z.min a b.
Proof.
  unfold accumulate_min. rewrite Z.gtb_ltb. destruct (Z.ltb_spec b a); lia.
Qed.

Variables (desktop : QRect) (win : MainWindow).

Hypothesis Hdesktop : compactRect desktop.
Hypothesis Hinner : compactRect (bodyRect win).

(** X6: [tryToExtendWidthBy] grants the lesser of what is asked and
    [maximalExtendBy]; the geometry it sets keeps the top and the height,
    is wider by what is granted, ends at the right edge of the desktop at
    most, never starts further right than before, and starts inside the
    desktop if the window did and was not wider than it; when it sets
    none, nothing was granted and the window already ended inside. *)
Theorem tryToExtendWidthBy_inside (addToWidth : Z) :
  compact addToWidth ->
  let inner := bodyRect win in
  let granted := fst (tryToExtendWidthBy desktop win addToWidth) in
  granted = Z.min addToWidth (maximalExtendBy desktop win)
  /\ match snd (tryToExtendWidthBy desktop win addToWidth) with
     | SetGeometry r =>
         Qt.y r = Qt.y inner
         /\ height r = height inner
         /\ width r = width inner + granted
         /\ Qt.x r + width r <= Qt.x desktop + width desktop
         /\ Qt.x r <= Qt.x inner
         /\ (Qt.x desktop <= Qt.x inner -> width inner <= width desktop ->
             Qt.x desktop <= Qt.x r)
     | Layout.UpdateControlsGeometry =>
         granted = 0
         /\ Qt.x inner + width inner <= Qt.x desktop + width desktop
     end.
Proof.
  intros Hadd inner granted. subst granted inner.
  pose proof (width_compact _ Hdesktop) as Wd.
  pose proof (width_compact _ Hinner) as Wi.
  pose proof (height_compact _ Hinner) as Hi.
  destruct Hdesktop as (Dx1 & Dy1 & Dx2 & Dy2).
  destruct Hinner as (Ix1 & Iy1 & Ix2 & Iy2).
  unfold tryToExtendWidthBy, maximalExtendBy. cbv zeta.
  rewrite accumulate_min_spec, min_spec, !Int32_max_spec.
  set (wd := width desktop) in *. set (wi := width (bodyRect win)) in *.
  set (hi := height (bodyRect win)) in *.
  unfold compact, Qt.x, Qt.y in *. unfold Int32.sub, Int32.add.
  rewrite (wrap_small (wd - wi))
    by (unfold Int32.in_range, Int32.int_min, Int32.int_max; lia).
  set (granted := Z.min addToWidth (Z.max (wd - wi) 0)).
  assert (Hg : - 2 ^ 25 <= granted <= 2 ^ 27) by (subst granted; lia).
  rewrite (wrap_small (wi + granted))
    by (unfold Int32.in_range, Int32.int_min, Int32.int_max; lia).
  rewrite (wrap_small (x1 desktop + wd))
    by (unfold Int32.in_range, Int32.int_min, Int32.int_max; lia).
  rewrite (wrap_small (x1 desktop + wd - (wi + granted)))
    by (unfold Int32.in_range, Int32.int_min, Int32.int_max; lia).
  set (newLeft := Z.min (x1 (bodyRect win))
                        (x1 desktop + wd - (wi + granted))).
  destruct (negb (x1 (bodyRect win) =? newLeft)
            || negb (wi =? wi + granted)) eqn:Hchange; cbn [fst snd].
  - split; [reflexivity|].
    unfold mkQRect, width, height. cbn [x1 y1 x2 y2].
    unfold Int32.sub, Int32.add.
    assert (Hnl : - 2 ^ 28 <= newLeft <= 2 ^ 25) by (subst newLeft; lia).
    unwrap. subst newLeft granted. repeat split; lia.
  - apply orb_false_iff in Hchange. destruct Hchange as [Hl Hw].
    apply negb_false_iff, Z.eqb_eq in Hl, Hw.
    split; [reflexivity|]. subst newLeft. lia.
Qed.

(** X7: when [canExtendNoMove] accepts an extension and the window does
    not start left of the desktop, [tryToExtendWidthBy] grants all of it
    and leaves the left edge where it is. *)
Theorem tryToExtendWidthBy_no_move (extendBy : Z) :
  compact extendBy ->
  canExtendNoMove desktop win extendBy = true ->
  Qt.x desktop <= Qt.x (bodyRect win) ->
  tryToExtendWidthBy desktop win extendBy
  = (extendBy,
     if extendBy =? 0 then Layout.UpdateControlsGeometry
     else SetGeometry
            (mkQRect (Qt.x (bodyRect win)) (Qt.y (bodyRect win))
                     (width (bodyRect win) + extendBy)
                     (height (bodyRect win)))).
Proof.
  intros Hext Hcan Hleft.
  pose proof (width_compact _ Hdesktop) as Wd.
  pose proof (width_compact _ Hinner) as Wi.
  destruct Hdesktop as (Dx1 & Dy1 & Dx2 & Dy2).
  destruct Hinner as (Ix1 & Iy1 & Ix2 & Iy2).
  unfold canExtendNoMove in Hcan. cbv zeta in Hcan.
  unfold tryToExtendWidthBy. cbv zeta.
  rewrite accumulate_min_spec, min_spec, !Int32_max_spec.
  set (wd := width desktop) in *. set (wi := width (bodyRect win)) in *.
  unfold compact, Qt.x, Qt.y in *. unfold Int32.sub, Int32.add in *.
  rewrite (wrap_small (x1 (bodyRect win) + wi)) in Hcan
    by (unfold Int32.in_range, Int32.int_min, Int32.int_max; lia).
  rewrite (wrap_small (x1 (bodyRect win) + wi + extendBy)) in Hcan
    by (unfold Int32.in_range, Int32.int_min, Int32.int_max; lia).
  rewrite (wrap_small (x1 desktop + wd)) in Hcan
    by (unfold Int32.in_range, Int32.int_min, Int32.int_max; lia).
  apply Z.leb_le in Hcan.
  rewrite (wrap_small (wd - wi))
    by (unfold Int32.in_range, Int32.int_min, Int32.int_max; lia).
  replace (Z.min extendBy (Z.max (wd - wi) 0)) with extendBy by lia.
  rewrite (wrap_small (wi + extendBy))
    by (unfold Int32.in_range, Int32.int_min, Int32.int_max; lia).
  rewrite (wrap_small (x1 desktop + wd))
    by (unfold Int32.in_range, Int32.int_min, Int32.int_max; lia).
  rewrite (wrap_small (x1 desktop + wd - (wi + extendBy)))
    by (unfold Int32.in_range, Int32.int_min, Int32.int_max; lia).
  replace (Z.min (x1 (bodyRect win)) (x1 desktop + wd - (wi + extendBy)))
    with (x1 (bodyRect win)) by lia.
  rewrite Z.eqb_refl. cbn [negb orb].
  destruct (Z.eqb_spec extendBy 0) as [->|Hnz].
  - rewrite Z.add_0_r, Z.eqb_refl. reflexivity.
  - replace (wi =? wi + extendBy) with false
      by (symmetry; apply Z.eqb_neq; lia).
    reflexivity.
Qed.

End Extend.

(** ** The cached rectangle of the desktop *)
Section DesktopRect.
Import Layout.

Lemma wrap64_small (z : Z) : - 2 ^ 63 <= z < 2 ^ 63 -> wrap64 z = z.
Proof. intros Hz. unfold wrap64. rewrite Z.mod_small; lia. Qed.

Variable desktop : Z -> QRect.

(** The cache is empty, or holds the rectangle of a time not after
    [last]. *)
Local Abbreviation coherent last m :=
  (monitorLastGot m = 0
   \/ (0 <= monitorLastGot m <= last
       /\ monitorRect m = desktop (monitorLastGot m))).

Lemma desktopRects_recent (times : list Z) :
  forall (last : Z) (m : Monitor),
  0 <= last -> ascending last times -> coherent last m ->
  Forall2 (fun t r => exists t', t - 1000 < t' <= t /\ r = desktop t')
          times (desktopRects desktop times m).
Proof.
  induction times as [|t times IH]; intros last m Hlast Hasc Hm.
  - constructor.
  - destruct Hasc as (Hle & Hbound & Hasc).
    cbn [desktopRects]. unfold desktopRect.
    destruct ((monitorLastGot m =? 0)
              || (t >=? wrap64 (monitorLastGot m + 1000))) eqn:Hfetch.
    + constructor.
      * exists t. split; [lia | reflexivity].
      * apply (IH t); [lia | exact Hasc |].
        cbn [monitorLastGot monitorRect].
        destruct (Z.eq_dec t 0) as [->|Hnz]; [now left|].
        right. split; [lia | reflexivity].
    + apply orb_false_iff in Hfetch. destruct Hfetch as [Hnz Hold].
      apply Z.eqb_neq in Hnz.
      destruct Hm as [Hm|[Hgot Hrect]]; [congruence|].
      rewrite wrap64_small in Hold by lia.
      rewrite Z.geb_leb in Hold. apply Z.leb_gt in Hold.
      constructor.
      * exists (monitorLastGot m). split; [lia | exact Hrect].
      * apply (IH t); [lia | exact Hasc |].
        right. split; [lia | exact Hrect].
Qed.

(** X8: in any run of calls at times that do not decrease, starting
    with an empty cache, [desktopRect] answers each call with the
    rectangle that the desktop had less than 1000 ms before the call. *)
Theorem desktopRect_recent (times : list Z) (m : Monitor) :
  ascending 0 times -> monitorLastGot m = 0 ->
  Forall2 (fun t r => exists t', t - 1000 < t' <= t /\ r = desktop t')
          times (desktopRects desktop times m).
Proof.
  intros Hasc Hm. apply (desktopRects_recent times 0 m); [lia|exact Hasc|].
  now left.
Qed.

(** X9: after a fetch at a time [t0] other than 0, a call less than
    1000 ms later answers from the cache, whatever the desktop has become;
    a fetch at the time 0 is not kept: the next call fetches again. *)
Theorem desktopRect_cached (m : Monitor) (t0 t : Z) (r0 r : QRect) :
  monitorLastGot m = 0 ->
  0 <= t0 < 2 ^ 62 -> t0 <= t < t0 + 1000 ->
  desktopRect t r (snd (desktopRect t0 r0 m))
  = if t0 =? 0
    then (r, {| monitorLastGot := t; monitorRect := r |})
    else (r0, {| monitorLastGot := t0; monitorRect := r0 |}).
Proof.
  intros Hm Ht0 Ht. unfold desktopRect at 2. rewrite Hm. cbn [Z.eqb orb snd].
  unfold desktopRect. cbn [monitorLastGot monitorRect].
  destruct (Z.eqb_spec t0 0) as [->|Hnz]; [reflexivity|].
  cbn [orb]. rewrite wrap64_small by lia.
  replace (t >=? t0 + 1000) with false
    by (symmetry; rewrite Z.geb_leb; apply Z.leb_gt; lia).
  reflexivity.
Qed.

End DesktopRect.
(** ** Hiding the window *)
Section Hiding.
Import Tray.

(** X10: [hideNoQuit] answers [true] exactly when the application is
    not quitting and either a tray mode is set and there is a tray icon, or
    the mode is window-only on a Mac; it then closes the window once,
    before anything else, and shows the chats list only with a session; it
    answers [false] without having done anything. *)
Theorem hideNoQuit_hidden (sh : Shell) :
  (fst (hideNoQuit sh) = true <->
     quitting sh = false
     /\ ((workMode sh <> WindowOnly /\ hasTrayIcon sh = true)
         \/ (workMode sh = WindowOnly /\ IsMac sh = true)))
  /\ (fst (hideNoQuit sh) = true ->
      exists rest,
        snd (hideNoQuit sh) = CloseWithoutDestroy :: rest
        /\ ~ In CloseWithoutDestroy rest)
  /\ (fst (hideNoQuit sh) = false -> snd (hideNoQuit sh) = [])
  /\ (In ShowChatsList (snd (hideNoQuit sh)) <->
        fst (hideNoQuit sh) = true /\ hasSessionController sh = true).
Proof.
  destruct sh as [q t m mac s].
  split; [split | split; [| split; [| split]]].
  - destruct q, t, m, mac, s; cbn; intros E; try discriminate;
      (split; [reflexivity|]);
      ((left; split; [discriminate | reflexivity])
       || (right; split; reflexivity)).
  - destruct q, t, m, mac, s; cbn;
      intros [Hq [[Hm Ht]|[Hm Hmac]]]; congruence.
  - destruct q, t, m, mac, s; cbn; intros E; try discriminate;
      eexists; (split; [reflexivity|]); cbn; intuition discriminate.
  - destruct q, t, m, mac, s; cbn; intros E; try discriminate; reflexivity.
  - destruct q, t, m, mac, s; cbn; intuition discriminate.
  - cbn. intros [Hh Hs]. subst s.
    destruct q, t, m, mac; cbn in *; try discriminate; auto 10.
Qed.

Variables (st : Style) (app : Application).

(** X11: [handleStateChanged] closes the window to the tray exactly on
    a change to the minimized state in the tray-only mode, with a tray
    icon and outside quitting; a change to the minimized state never
    touches the stored position, any other change leaves the window for
    [savePosition] to record. *)
Theorem handleStateChanged_tray
    (sh : Shell) (win : MainWindow) (state : WindowState) (core : Core) :
  (In CloseWithoutDestroy
      (fst (handleStateChanged st app sh win state core)) <->
     state = WindowMinimized /\ workMode sh = TrayOnly
     /\ quitting sh = false /\ hasTrayIcon sh = true)
  /\ (state = WindowMinimized ->
      snd (handleStateChanged st app sh win state core) = core)
  /\ (In UpdateIsActiveFocus
         (fst (handleStateChanged st app sh win state core)) <->
        state <> WindowMinimized).
Proof.
  split; [|split].
  - destruct sh as [q t m mac s].
    unfold handleStateChanged, minimizeToTray; cbn.
    destruct state, q, t, m; cbn; intuition (discriminate || congruence).
  - intros ->. unfold handleStateChanged. cbn [snd].
    unfold savePosition.
    rewrite (effectiveState_gated win WindowMinimized); [reflexivity|].
    now left.
  - destruct sh as [q t m mac s].
    unfold handleStateChanged, minimizeToTray; cbn.
    destruct state, q, t, m; cbn; intuition (discriminate || congruence).
Qed.

(** X12: a window whose maximized state has been saved comes back
    maximized: after [savePosition] in the maximized state (gate open,
    stored size at least the minimal one), hiding the window and showing
    it again sets the maximized state; after a save outside the maximized
    state, showing it again leaves its state alone. *)
Theorem handleVisibleChanged_restores
    (saving hidden shown : MainWindow) (state : WindowState)
    (core later : Core) (before : bool) :
  effectiveState saving state <> WindowMinimized ->
  isVisible saving = true -> positionInited saving = true ->
  validSize st
    (realPosition app saving (effectiveState saving state)
                  (windowPosition core)) ->
  let saved := savePosition st app saving state core in
  let flag := snd (handleVisibleChanged saved false hidden before) in
  let back := fst (handleVisibleChanged later true shown flag) in
  (effectiveState saving state = WindowMaximized ->
   windowState back = WindowMaximized)
  /\ (effectiveState saving state <> WindowMaximized -> back = shown).
Proof.
  intros Hmin Hvis Hinit Hvalid saved flag back.
  assert (Hstored : windowPosition saved
                    = realPosition app saving (effectiveState saving state)
                        (windowPosition core))
    by (now apply savePosition_stores).
  subst back flag. unfold handleVisibleChanged. cbn [snd].
  rewrite Hstored. unfold realPosition. split.
  - intros ->. reflexivity.
  - intros Hnot.
    replace (WindowState_eqb (effectiveState saving state) WindowMaximized)
      with false by (destruct (effectiveState saving state);
                     simpl; congruence).
    unfold normalPosition.
    destruct (currentRect saving) as [[[rx ry] rw] rh].
    destruct (currentCenter saving) as [cx cy].
    destruct (fst (chooseScreen app cx cy)); reflexivity.
Qed.

End Hiding.

(** ** The layout of the controls *)
Section Controls.
Import Layout.

(** X13: [updateControlsGeometry] splits the inner rectangle: the body
    starts below the outdated bar and is as much lower, it ends where the
    right column needs its width; the right column has that width, the top
    and the height of the body, and, the inner rectangle starting at 0 as
    [rect()] does, it starts where the body ends. *)
Theorem updateControlsGeometry_tiles
    (lineWidth : Z) (inner : QRect) (titleShadow : bool)
    (outdatedHeight rightColumn : option Z) :
  compactRect inner ->
  compact (match outdatedHeight with Some oh => oh | None => 0 end) ->
  compact (match rightColumn with Some cw => cw | None => 0 end) ->
  let bar := match outdatedHeight with Some oh => oh | None => 0 end in
  let column := match rightColumn with Some cw => cw | None => 0 end in
  let c :=
    updateControlsGeometry lineWidth inner titleShadow outdatedHeight
      rightColumn in
  let body := bodyGeometry c in
  (Qt.x body = Qt.x inner /\ Qt.y body = Qt.y inner + bar
   /\ width body = width inner - column
   /\ height body = height inner - bar)
  /\ match rightColumnGeometry c with
     | Some r =>
         rightColumn <> None
         /\ Qt.x r = width inner - column /\ Qt.y r = Qt.y body
         /\ width r = column /\ height r = height body
         /\ (Qt.x inner = 0 -> Qt.x r = Qt.x body + width body)
     | None => rightColumn = None
     end.
Proof.
  intros Hinner Hbar Hcolumn bar column c body.
  pose proof (width_compact _ Hinner) as Wi.
  pose proof (height_compact _ Hinner) as Hi.
  destruct Hinner as (Ix1 & Iy1 & Ix2 & Iy2).
  subst body c. unfold updateControlsGeometry. cbv zeta.
  set (wi := width inner) in *. set (hi := height inner) in *.
  unfold compact, Qt.x, Qt.y in *.
  destruct outdatedHeight as [oh|], rightColumn as [cw|];
    subst bar column; cbn [bodyGeometry rightColumnGeometry];
    unfold mkQRect, width, height; cbn [x1 y1 x2 y2];
    unwrap; repeat split; try lia; try discriminate.
Qed.

End Controls.
(** ** The black icon *)
Section BlackIcon.
Import Icon.

(** A property checked on every number below [n] holds below [n]. *)
Lemma forall_below (P : Z -> bool) (n : nat) :
  forallb P (map Z.of_nat (seq 0 n)) = true ->
  forall z, 0 <= z < Z.of_nat n -> P z = true.
Proof.
  intros Hall z Hz. rewrite forallb_forall in Hall. apply Hall.
  apply in_map_iff. exists (Z.to_nat z). split; [lia|].
  apply in_seq. lia.
Qed.

Lemma land_255 (a : Z) : 0 <= Z.land a 255 <= 255.
Proof.
  change 255 with (Z.ones 8) at 1 2. rewrite Z.land_ones by lia.
  pose proof (Z.mod_pos_bound a (2 ^ 8) ltac:(lia)). lia.
Qed.

(** [gray] as the weighted sum of the three channels. *)
Lemma grayOf_sum (value : Z) :
  grayOf value
  = (Z.land (Z.shiftr value 16) 255 * ired
     + Z.land (Z.shiftr value 8) 255 * igreen
     + Z.land value 255 * iblue) / 2 ^ 24.
Proof.
  unfold grayOf, add, mul, wrap, ired, igreen, iblue.
  pose proof (land_255 (Z.shiftr value 16)).
  pose proof (land_255 (Z.shiftr value 8)).
  pose proof (land_255 value).
  set (r := Z.land (Z.shiftr value 16) 255) in *.
  set (g := Z.land (Z.shiftr value 8) 255) in *.
  set (b := Z.land value 255) in *.
  rewrite (Z.mod_small (r * 5016387)) by lia.
  rewrite (Z.mod_small (g * 9848225)) by lia.
  rewrite (Z.mod_small (b * 1912602)) by lia.
  rewrite (Z.mod_small (r * 5016387 + g * 9848225)) by lia.
  rewrite (Z.mod_small (r * 5016387 + g * 9848225 + b * 1912602)) by lia.
  apply Z.shiftr_div_pow2. lia.
Qed.

Lemma grayOf_range (value : Z) : 0 <= grayOf value <= 254.
Proof.
  rewrite grayOf_sum. unfold ired, igreen, iblue.
  pose proof (land_255 (Z.shiftr value 16)).
  pose proof (land_255 (Z.shiftr value 8)).
  pose proof (land_255 value).
  set (r := Z.land (Z.shiftr value 16) 255) in *.
  set (g := Z.land (Z.shiftr value 8) 255) in *.
  set (b := Z.land value 255) in *.
  split.
  - apply Z.div_pos; lia.
  - apply Z.lt_succ_r. apply Z.div_lt_upper_bound; lia.
Qed.

(** The four facts on [component], checked on each gray level. *)
Lemma componentOf_table (gray : Z) :
  0 <= gray <= 255 ->
  0 <= componentOf gray
  /\ (gray <= 254 -> componentOf gray <= 253)
  /\ (gray <= 100 -> componentOf gray = 0)
  /\ documentedComponent gray - 1 <= componentOf gray
     <= documentedComponent gray.
Proof.
  intros Hg.
  pose proof (forall_below
    (fun g => (0 <=? componentOf g)
              && ((254 <? g) || (componentOf g <=? 253))
              && ((100 <? g) || (componentOf g =? 0))
              && (documentedComponent g - 1 <=? componentOf g)
              && (componentOf g <=? documentedComponent g))
    256 ltac:(vm_compute; reflexivity) gray ltac:(lia)) as Hcheck.
  cbv beta in Hcheck.
  apply andb_true_iff in Hcheck. destruct Hcheck as [Hcheck Hup].
  apply andb_true_iff in Hcheck. destruct Hcheck as [Hcheck Hlow].
  apply andb_true_iff in Hcheck. destruct Hcheck as [Hcheck Hzero].
  apply andb_true_iff in Hcheck. destruct Hcheck as [Hpos Hmax].
  apply Z.leb_le in Hup, Hlow, Hpos.
  split; [exact Hpos|]. split; [|split; [|split; assumption]].
  - intros Hle. apply orb_true_iff in Hmax.
    destruct Hmax as [H|H]; [apply Z.ltb_lt in H; lia|].
    now apply Z.leb_le.
  - intros Hle. apply orb_true_iff in Hzero.
    destruct Hzero as [H|H]; [apply Z.ltb_lt in H; lia|].
    now apply Z.eqb_eq.
Qed.

(** X14: between the gray levels 0 and 255, [component] is the value
    that the comment of [ConvertIconToBlack] documents, or one less; it
    never decreases when the gray level grows. *)
Theorem componentOf_documented (gray brighter : Z) :
  0 <= gray <= brighter -> brighter <= 255 ->
  documentedComponent gray - 1 <= componentOf gray
    <= documentedComponent gray
  /\ componentOf gray <= componentOf brighter.
Proof.
  intros Hg Hb. split; [apply componentOf_table; lia|].
  pose proof (forall_below
    (fun g => forallb (fun b => (b <? g) || (componentOf g <=? componentOf b))
                      (map Z.of_nat (seq 0 256)))
    256 ltac:(vm_compute; reflexivity) gray ltac:(lia)) as Hcheck.
  cbv beta in Hcheck.
  pose proof (forall_below _ 256 Hcheck brighter ltac:(lia)) as Hpair.
  cbv beta in Hpair. apply orb_true_iff in Hpair.
  destruct Hpair as [H|H]; [apply Z.ltb_lt in H; lia|].
  now apply Z.leb_le.
Qed.

(** The three colour bytes made of one [component]. *)
Lemma channels_table (c : Z) :
  0 <= c <= 255 ->
  let k := Z.lor (Z.lor (shiftl c 16) (shiftl c 8)) c in
  Z.shiftr k 24 = 0
  /\ Z.land (Z.shiftr k 16) 255 = c
  /\ Z.land (Z.shiftr k 8) 255 = c
  /\ Z.land k 255 = c.
Proof.
  intros Hc.
  pose proof (forall_below
    (fun c => let k := Z.lor (Z.lor (shiftl c 16) (shiftl c 8)) c in
              (Z.shiftr k 24 =? 0)
              && (Z.land (Z.shiftr k 16) 255 =? c)
              && (Z.land (Z.shiftr k 8) 255 =? c)
              && (Z.land k 255 =? c))
    256 ltac:(vm_compute; reflexivity) c ltac:(lia)) as Hcheck.
  cbv beta zeta in Hcheck.
  repeat (apply andb_true_iff in Hcheck; destruct Hcheck as [Hcheck ?]).
  repeat match goal with
         | H : (_ =? _) = true |- _ => apply Z.eqb_eq in H
         end.
  cbv zeta. auto.
Qed.

(** A pixel is its alpha byte above the three colour bytes. *)
Lemma blackPixel_parts (value : Z) :
  blackPixel value
  = Z.lor (Z.land value 4278190080)
          (Z.lor (Z.lor (shiftl (componentOf (grayOf value)) 16)
                        (shiftl (componentOf (grayOf value)) 8))
                 (componentOf (grayOf value))).
Proof. unfold blackPixel. cbv zeta. now rewrite <- !Z.lor_assoc. Qed.

Lemma componentOf_byte (gray : Z) : 0 <= componentOf gray <= 255.
Proof. unfold componentOf. cbv zeta. apply land_255. Qed.

(** X15: [blackPixel] keeps the alpha byte of the pixel and gives its
    three colour bytes one common value, which is 253 at most. *)
Theorem blackPixel_gray (value : Z) :
  let out := blackPixel value in
  let component := componentOf (grayOf value) in
  Z.shiftr out 24 = Z.land (Z.shiftr value 24) 255
  /\ Z.land (Z.shiftr out 16) 255 = component
  /\ Z.land (Z.shiftr out 8) 255 = component
  /\ Z.land out 255 = component
  /\ 0 <= component <= 253.
Proof.
  intros out component. subst out. rewrite blackPixel_parts. fold component.
  pose proof (componentOf_byte (grayOf value)) as Hbyte. fold component in Hbyte.
  destruct (channels_table component Hbyte) as (K24 & K16 & K8 & K0).
  cbv zeta in K24, K16, K8, K0.
  set (k := Z.lor (Z.lor (shiftl component 16) (shiftl component 8))
                  component) in *.
  repeat split.
  - rewrite Z.shiftr_lor, K24, Z.lor_0_r, Z.shiftr_land. reflexivity.
  - rewrite Z.shiftr_lor, Z.land_lor_distr_l, K16, Z.shiftr_land.
    rewrite <- Z.land_assoc.
    replace (Z.land (Z.shiftr 4278190080 16) 255) with 0 by reflexivity.
    now rewrite Z.land_0_r.
  - rewrite Z.shiftr_lor, Z.land_lor_distr_l, K8, Z.shiftr_land.
    rewrite <- Z.land_assoc.
    replace (Z.land (Z.shiftr 4278190080 8) 255) with 0 by reflexivity.
    now rewrite Z.land_0_r.
  - rewrite Z.land_lor_distr_l, K0. rewrite <- Z.land_assoc.
    replace (Z.land 4278190080 255) with 0 by reflexivity.
    now rewrite Z.land_0_r.
  - apply Hbyte.
  - pose proof (grayOf_range value).
    apply (componentOf_table (grayOf value)); lia.
Qed.

(** X16: a pixel whose red, green and blue bytes are all 100 at most
    becomes black: only its alpha byte is left. *)
Theorem blackPixel_dark (value : Z) :
  Z.land (Z.shiftr value 16) 255 <= 100 ->
  Z.land (Z.shiftr value 8) 255 <= 100 ->
  Z.land value 255 <= 100 ->
  blackPixel value = Z.land value 4278190080.
Proof.
  intros Hr Hg Hb.
  assert (Hgray : 0 <= grayOf value <= 100).
  { pose proof (grayOf_range value) as [Hlow _]. split; [exact Hlow|].
    rewrite grayOf_sum. unfold ired, igreen, iblue.
    pose proof (land_255 (Z.shiftr value 16)).
    pose proof (land_255 (Z.shiftr value 8)).
    pose proof (land_255 value).
    apply Z.lt_succ_r. apply Z.div_lt_upper_bound; lia. }
  rewrite blackPixel_parts.
  replace (componentOf (grayOf value)) with 0
    by (symmetry; apply (componentOf_table (grayOf value)); lia).
  change (Z.lor (Z.lor (shiftl 0 16) (shiftl 0 8)) 0) with 0.
  apply Z.lor_0_r.
Qed.

End BlackIcon.
(** ** The loops of [ConvertIconToBlack] *)
Section IconLoops.
Import Icon.

Variable f : Z -> Z.

Lemma mapAt_none (P : Z -> bool) (data : list Z) :
  forall k : Z,
  (forall i, k <= i -> P i = false) -> mapAt P f k data = data.
Proof.
  induction data as [|v rest IH]; intros k Hno; [reflexivity|].
  cbn [mapAt]. rewrite (Hno k) by lia. f_equal.
  apply IH. intros i Hi. apply Hno. lia.
Qed.

Lemma store_mapAt (data : list Z) :
  forall pixel k : Z,
  store (pixel - k) f data = mapAt (fun i => i =? pixel) f k data.
Proof.
  induction data as [|v rest IH]; intros pixel k; [reflexivity|].
  cbn [store mapAt].
  destruct (Z.eqb_spec (pixel - k) 0), (Z.eqb_spec k pixel); try lia.
  - f_equal. symmetry. apply mapAt_none.
    intros i Hi. apply Z.eqb_neq. lia.
  - f_equal. replace (pixel - k - 1) with (pixel - (k + 1)) by lia.
    apply IH.
Qed.

Lemma mapAt_ext (P Q : Z -> bool) (data : list Z) :
  forall k : Z,
  (forall i, k <= i -> P i = Q i) ->
  mapAt P f k data = mapAt Q f k data.
Proof.
  induction data as [|v rest IH]; intros k Hext; [reflexivity|].
  cbn [mapAt]. rewrite (Hext k) by lia. f_equal.
  apply IH. intros i Hi. apply Hext. lia.
Qed.

Lemma mapAt_mapAt (P Q : Z -> bool) (data : list Z) :
  forall k : Z,
  (forall i, k <= i -> P i && Q i = false) ->
  mapAt P f k (mapAt Q f k data)
  = mapAt (fun i => P i || Q i) f k data.
Proof.
  induction data as [|v rest IH]; intros k Hdis; [reflexivity|].
  cbn [mapAt]. rewrite IH by (intros i Hi; apply Hdis; lia).
  f_equal. specialize (Hdis k ltac:(lia)).
  destruct (P k), (Q k); try reflexivity. discriminate.
Qed.

Lemma mapAt_length (P : Z -> bool) (data : list Z) :
  forall k : Z, List.length (mapAt P f k data) = List.length data.
Proof.
  induction data as [|v rest IH]; intros k; [reflexivity|].
  cbn [mapAt List.length]. now rewrite IH.
Qed.

End IconLoops.

Section IconImage.
Import Icon.

(** The inner loop converts the [count] words from [pixel] on. *)
Lemma convertLine_spec (count : nat) :
  forall (pixel : Z) (data : list Z),
  0 <= pixel ->
  convertLine count pixel data
  = (mapAt (fun i => (pixel <=? i) && (i <? pixel + Z.of_nat count))
           blackPixel 0 data,
     pixel + Z.of_nat count).
Proof.
  induction count as [|count IH]; intros pixel data Hpixel.
  - cbn [convertLine]. f_equal; [|lia]. symmetry. apply mapAt_none.
    intros i _. apply andb_false_iff.
    destruct (Z.leb_spec pixel i); [right; apply Z.ltb_ge; lia | now left].
  - cbn [convertLine]. rewrite IH by lia. f_equal; [|lia].
    assert (E : store pixel blackPixel data
                = mapAt (fun i => i =? pixel) blackPixel 0 data)
      by (rewrite <- (store_mapAt blackPixel data pixel 0); f_equal; lia).
    rewrite E, mapAt_mapAt.
    + apply mapAt_ext. intros i _.
      destruct (Z.leb_spec (pixel + 1) i), (Z.ltb_spec i (pixel + 1 + Z.of_nat count)),
               (Z.eqb_spec i pixel), (Z.leb_spec pixel i),
               (Z.ltb_spec i (pixel + Z.of_nat (S count)));
        try reflexivity; lia.
    + intros i _.
      destruct (Z.leb_spec (pixel + 1) i), (Z.eqb_spec i pixel);
        try reflexivity; lia.
Qed.

Lemma convertLines_spec (width : nat) (added : Z) (lines : nat) :
  forall (pixel : Z) (data : list Z),
  0 <= pixel -> 0 <= added -> 0 < Z.of_nat width + added ->
  convertLines lines width added pixel data
  = mapAt (inLines lines (Z.of_nat width) (Z.of_nat width + added) pixel)
          blackPixel 0 data.
Proof.
  set (ipl := Z.of_nat width + added).
  induction lines as [|lines IH]; intros pixel data Hpixel Hadded Hipl.
  - cbn [convertLines]. symmetry. apply mapAt_none. intros i _.
    unfold inLines.
    destruct (Z.leb_spec pixel i); [|reflexivity].
    replace (i <? pixel + Z.of_nat 0 * ipl) with false
      by (symmetry; apply Z.ltb_ge; lia).
    reflexivity.
  - cbn [convertLines]. rewrite convertLine_spec by lia.
    replace (pixel + Z.of_nat width + added) with (pixel + ipl)
      by (subst ipl; lia).
    rewrite IH by lia. rewrite mapAt_mapAt.
    + apply mapAt_ext. intros i _. unfold inLines.
      destruct (Z.leb_spec pixel i) as [Hi|Hi].
      2:{ replace (pixel + ipl <=? i) with false
            by (symmetry; apply Z.leb_gt; lia).
          reflexivity. }
      cbn [andb].
      destruct (Z.ltb_spec i (pixel + ipl)) as [Hfirst|Hrest].
      * replace (pixel + ipl <=? i) with false
          by (symmetry; apply Z.leb_gt; lia).
        replace (i <? pixel + Z.of_nat (S lines) * ipl) with true
          by (symmetry; apply Z.ltb_lt; nia).
        rewrite (Z.mod_small (i - pixel)) by lia.
        cbn [andb orb].
        destruct (Z.ltb_spec i (pixel + Z.of_nat width)),
                 (Z.ltb_spec (i - pixel) (Z.of_nat width));
          try reflexivity; lia.
      * replace (pixel + ipl <=? i) with true
          by (symmetry; apply Z.leb_le; lia).
        replace (i <? pixel + Z.of_nat width) with false
          by (symmetry; apply Z.ltb_ge; subst ipl; lia).
        cbn [andb orb].
        replace (pixel + ipl + Z.of_nat lines * ipl)
          with (pixel + Z.of_nat (S lines) * ipl) by lia.
        replace (i - pixel) with (i - (pixel + ipl) + 1 * ipl) by lia.
        rewrite Z.mod_add by lia. now rewrite orb_false_r.
    + intros i _. unfold inLines.
      destruct (Z.leb_spec (pixel + ipl) i) as [Hi|Hi]; [|reflexivity].
      replace (i <? pixel + Z.of_nat width) with false
        by (symmetry; apply Z.ltb_ge; subst ipl; lia).
      now rewrite !andb_false_r.
Qed.

(** X17: on an image whose lines hold their pixels,
    [ConvertIconToBlack] converts each pixel of each line once and leaves
    the padding at the end of the lines, and whatever follows the last
    line, as it was; the size of the buffer does not change. *)
Theorem ConvertIconToBlack_pixels (image : QImage) :
  Int32.in_range (bytesPerLine image) ->
  0 <= height image ->
  0 <= width image <= Z.quot (bytesPerLine image) 4 ->
  0 < Z.quot (bytesPerLine image) 4 ->
  let intsPerLine := Z.quot (bytesPerLine image) 4 in
  bits (ConvertIconToBlack image)
  = mapAt (fun i => (i <? height image * intsPerLine)
                    && (i mod intsPerLine <? width image))
          blackPixel 0 (bits image)
  /\ List.length (bits (ConvertIconToBlack image))
     = List.length (bits image).
Proof.
  intros Hrange Hh Hw Hipl intsPerLine. subst intsPerLine.
  unfold ConvertIconToBlack. cbn [bits]. cbv zeta.
  unfold Int32.in_range, Int32.int_min, Int32.int_max in Hrange.
  assert (Hq : 0 < Z.quot (bytesPerLine image) 4 <= bytesPerLine image).
  { split; [exact Hipl|].
    destruct (Z_le_gt_dec (bytesPerLine image) 0) as [Hneg|Hpos].
    - pose proof (Z.quot_opp_l (- bytesPerLine image) 4 ltac:(lia)) as E.
      rewrite Z.opp_involutive in E.
      pose proof (Z.quot_pos (- bytesPerLine image) 4 ltac:(lia) ltac:(lia)).
      lia.
    - apply Z.quot_le_upper_bound; lia. }
  unfold Int32.div, Int32.sub.
  rewrite (wrap_small (Z.quot (bytesPerLine image) 4))
    by (unfold Int32.in_range, Int32.int_min, Int32.int_max; lia).
  set (ipl := Z.quot (bytesPerLine image) 4) in *.
  rewrite (wrap_small (ipl - width image))
    by (unfold Int32.in_range, Int32.int_min, Int32.int_max; lia).
  rewrite convertLines_spec by lia.
  rewrite !Z2Nat.id by lia.
  replace (width image + (ipl - width image)) with ipl by lia.
  split; [|apply mapAt_length].
  apply mapAt_ext. intros i Hi. unfold inLines.
  replace (0 <=? i) with true by (symmetry; apply Z.leb_le; lia).
  rewrite Z.add_0_l, Z.sub_0_r, Z2Nat.id by lia. reflexivity.
Qed.

End IconImage.

(** ** The logo files *)
Section Logo.
Import Icon.

Lemma LogoVariant_other (variant : Z) :
  ~ 1 <= variant <= 5 -> LogoVariant variant = ""%string.
Proof.
  intros Hout. destruct variant as [|p|p]; try reflexivity.
  destruct p as [[[]|[]|]|[[]|[]|]|]; try reflexivity; lia.
Qed.

(** X18: every variant outside 1..5 loads the default logo, and the
    variants 1 to 5 load five other files, all different. *)
Theorem LoadLogo_variants (a b : Z) :
  LoadLogo a = LoadLogo b <->
  a = b \/ (~ 1 <= a <= 5 /\ ~ 1 <= b <= 5).
Proof.
  unfold LoadLogo.
  assert (Ha : a = 1 \/ a = 2 \/ a = 3 \/ a = 4 \/ a = 5 \/ ~ 1 <= a <= 5)
    by lia.
  assert (Hb : b = 1 \/ b = 2 \/ b = 3 \/ b = 4 \/ b = 5 \/ ~ 1 <= b <= 5)
    by lia.
  destruct Ha as [->|[->|[->|[->|[->|Ha]]]]];
    destruct Hb as [->|[->|[->|[->|[->|Hb]]]]];
    rewrite ?(LogoVariant_other a Ha), ?(LogoVariant_other b Hb);
    cbn; split; intros H; try discriminate; try lia; try reflexivity; auto.
Qed.

End Logo.
(** ** The extra properties on the sample desktop *)

(** X2: the window at [(100, 80)] of 900 x 700 is saved, then restored. *)
Lemma initGeometry_savePosition_witness :
  initGeometry Scenario.style Scenario.app Scenario.window false
    (windowPosition
       (savePosition Scenario.style Scenario.app Scenario.window
          WindowActive (Scenario.core (Scenario.position 0 0 0 0))))
  = Some (mkQRect 100 80 900 700).
Proof.
  apply (initGeometry_savePosition Scenario.style Scenario.app
           Scenario.window Scenario.window WindowActive
           (Scenario.core (Scenario.position 0 0 0 0))
           Scenario.screenA 100 80 900 700 false);
    try reflexivity; try discriminate;
    vm_compute; repeat split; discriminate.
Defined.

(** X3: the position of the scenario of the specification. *)
Lemma countInitialGeometry_within_witness :
  countInitialGeometry Scenario.style Scenario.app Scenario.window
    (Scenario.position 1800 50 400 300)
  = initial Scenario.style Scenario.app
  \/ exists px py pw ph : Z,
       countInitialGeometry Scenario.style Scenario.app Scenario.window
         (Scenario.position 1800 50 400 300)
       = mkQRect (px + Qt.x (geometry Scenario.screenA))
                 (py + Qt.y (geometry Scenario.screenA)) pw ph
       /\ (0 <= px /\ px + pw <= 0 + 1920)
       /\ (0 <= py /\ py + ph <= 0 + 1080)
       /\ (pw = Z.min (w (Scenario.position 1800 50 400 300)) 1920
           /\ ph = Z.min (h (Scenario.position 1800 50 400 300)) 1080)
       /\ (px + windowMinWidth Scenario.style
             <= Qt.width (geometry Scenario.screenA)
           /\ py + windowMinHeight Scenario.style
                <= Qt.height (geometry Scenario.screenA)).
Proof.
  apply (countInitialGeometry_within Scenario.style Scenario.app
           Scenario.window (Scenario.position 1800 50 400 300)
           Scenario.screenA 0 0 1920 1080).
  - reflexivity.
  - reflexivity.
  - vm_compute. repeat split; discriminate.
Defined.

(** X4: a run of three saves: shown, maximized, minimized. *)
Lemma savePositions_valid_witness :
  let events :=
    [(Scenario.window, WindowActive);
     (Scenario.maximizedWindow, WindowActive);
     (Scenario.minimizedWindow, WindowActive)] in
  let core := Scenario.core (Scenario.position 100 80 900 700) in
  validSize Scenario.style
    (windowPosition (savePositions Scenario.style Scenario.app events core))
  /\ (exists added,
        trace (savePositions Scenario.style Scenario.app events core)
        = trace core ++ added
        /\ Forall (validSize Scenario.style) (written added)).
Proof.
  apply (savePositions_valid Scenario.style Scenario.app).
  vm_compute. split; discriminate.
Defined.

(** X6: the window of 900 pixels asks for 1200 more on a desktop of
    1920: 1020 are granted and the window moves to the left edge. *)
Lemma tryToExtendWidthBy_inside_witness :
  fst (Layout.tryToExtendWidthBy (geometry Scenario.screenA)
         Scenario.window 1200) = 1020
  /\ snd (Layout.tryToExtendWidthBy (geometry Scenario.screenA)
            Scenario.window 1200)
     = Layout.SetGeometry (mkQRect 0 80 1920 700).
Proof.
  pose proof (tryToExtendWidthBy_inside (geometry Scenario.screenA)
                Scenario.window
                ltac:(vm_compute; repeat split; discriminate)
                ltac:(vm_compute; repeat split; discriminate)
                1200 ltac:(vm_compute; split; discriminate)) as [Hgranted _].
  split; [rewrite Hgranted|]; reflexivity.
Defined.

(** X7: 300 more pixels fit to the right of the window. *)
Lemma tryToExtendWidthBy_no_move_witness :
  Layout.tryToExtendWidthBy (geometry Scenario.screenA) Scenario.window 300
  = (300, Layout.SetGeometry (mkQRect 100 80 1200 700)).
Proof.
  rewrite (tryToExtendWidthBy_no_move (geometry Scenario.screenA)
             Scenario.window
             ltac:(vm_compute; repeat split; discriminate)
             ltac:(vm_compute; repeat split; discriminate)
             300 ltac:(vm_compute; split; discriminate)
             ltac:(reflexivity) ltac:(vm_compute; discriminate)).
  reflexivity.
Defined.

(** X8: five calls on a desktop that grows by one pixel each
    millisecond. *)
Lemma desktopRect_recent_witness :
  let desktop := fun t => mkQRect 0 0 (1920 + t) 1080 in
  Forall2 (fun t r => exists t', t - 1000 < t' <= t /\ r = desktop t')
          [0; 500; 1200; 1300; 2500]
          (Layout.desktopRects desktop [0; 500; 1200; 1300; 2500]
             {| Layout.monitorLastGot := 0;
                Layout.monitorRect := mkQRect 0 0 0 0 |}).
Proof.
  intros desktop. apply (desktopRect_recent desktop).
  - vm_compute. repeat split; discriminate.
  - reflexivity.
Defined.

(** X9: a fetch at 100 ms answers the call at 900 ms. *)
Lemma desktopRect_cached_witness :
  Layout.desktopRect 900 (mkQRect 0 0 1280 720)
    (snd (Layout.desktopRect 100 (mkQRect 0 0 1920 1080)
            {| Layout.monitorLastGot := 0;
               Layout.monitorRect := mkQRect 0 0 0 0 |}))
  = (mkQRect 0 0 1920 1080,
     {| Layout.monitorLastGot := 100;
        Layout.monitorRect := mkQRect 0 0 1920 1080 |}).
Proof.
  rewrite (desktopRect_cached _ 100 900); try reflexivity;
    vm_compute; split; (discriminate || reflexivity).
Defined.

(** X12: saved while maximized, hidden, shown again. *)
Lemma handleVisibleChanged_restores_witness :
  let saved :=
    savePosition Scenario.style Scenario.app Scenario.maximizedWindow
      WindowActive (Scenario.core (Scenario.position 100 80 900 700)) in
  let flag :=
    snd (Tray.handleVisibleChanged saved false Scenario.window false) in
  windowState
    (fst (Tray.handleVisibleChanged saved true Scenario.window flag))
  = WindowMaximized.
Proof.
  apply (handleVisibleChanged_restores Scenario.style Scenario.app
           Scenario.maximizedWindow Scenario.window Scenario.window
           WindowActive (Scenario.core (Scenario.position 100 80 900 700))).
  - discriminate.
  - reflexivity.
  - reflexivity.
  - vm_compute. split; discriminate.
  - reflexivity.
Defined.

(** X13: a body of 900 x 700 with an outdated bar of 30 pixels and a
    right column of 200. *)
Lemma updateControlsGeometry_tiles_witness :
  Layout.bodyGeometry
    (Layout.updateControlsGeometry 1 (mkQRect 0 0 900 700) true
       (Some 30) (Some 200))
  = mkQRect 0 30 700 670
  /\ Qt.width
       (Layout.bodyGeometry
          (Layout.updateControlsGeometry 1 (mkQRect 0 0 900 700) true
             (Some 30) (Some 200)))
     = Qt.width (mkQRect 0 0 900 700) - 200.
Proof.
  split; [reflexivity|].
  apply (updateControlsGeometry_tiles 1 (mkQRect 0 0 900 700) true
           (Some 30) (Some 200));
    vm_compute; repeat split; discriminate.
Defined.

(** X14: the gray level 131, where the code is one below the documented
    value, and a brighter one. *)
Lemma componentOf_documented_witness :
  documentedComponent 131 - 1 <= Icon.componentOf 131
    <= documentedComponent 131
  /\ Icon.componentOf 131 <= Icon.componentOf 200.
Proof.
  apply (componentOf_documented 131 200);
    vm_compute; repeat split; discriminate.
Defined.

(** X16: an opaque dark gray pixel. *)
Lemma blackPixel_dark_witness :
  Icon.blackPixel 4280295456 = 4278190080.
Proof.
  rewrite (blackPixel_dark 4280295456); try reflexivity;
    vm_compute; discriminate.
Defined.

(** X17: two lines of two white pixels and one word of padding. *)
Lemma ConvertIconToBlack_pixels_witness :
  Icon.bits
    (Icon.ConvertIconToBlack
       {| Icon.width := 2; Icon.height := 2; Icon.bytesPerLine := 12;
          Icon.bits := [4294967295; 4294967295; 7;
                        4294967295; 4294967295; 7] |})
  = [4294835709; 4294835709; 7; 4294835709; 4294835709; 7].
Proof.
  rewrite (proj1 (ConvertIconToBlack_pixels
             {| Icon.width := 2; Icon.height := 2; Icon.bytesPerLine := 12;
                Icon.bits := [4294967295; 4294967295; 7;
                              4294967295; 4294967295; 7] |}
             ltac:(vm_compute; split; discriminate)
             ltac:(vm_compute; discriminate)
             ltac:(vm_compute; split; discriminate)
             ltac:(vm_compute; reflexivity))).
  reflexivity.
Defined.

(** X19: the default rectangle on the monitor "A". *)
Lemma initial_centred_witness :
  Qt.width (initial Scenario.style Scenario.app) = 800
  /\ Qt.height (initial Scenario.style Scenario.app) = 600.
Proof.
  destruct (initial_centred Scenario.style Scenario.app
              (mkQRect 0 0 1920 1080) Scenario.screenA
              eq_refl eq_refl
              ltac:(vm_compute; repeat split; discriminate)
              ltac:(vm_compute; repeat split; discriminate)
              ltac:(vm_compute; repeat split; discriminate))
    as (Hw & Hh & _).
  split; assumption.
Defined.


(** ** The default rectangle as the fallback *)
Section Default.

Variables (st : Style) (app : Application).

(** [initial] in plain integers. *)
Lemma initial_place (area : QRect) :
  area = primaryAvailable st app ->
  smallRect area ->
  small (initialWidth st app) -> small (initialHeight st app) ->
  width area = x2 area - x1 area + 1
  /\ height area = y2 area - y1 area + 1
  /\ initial st app
     = mkQRect
         (x1 area + Z.max (Z.quot (width area - initialWidth st app) 2) 0)
         (y1 area + Z.max (Z.quot (height area - initialHeight st app) 2) 0)
         (initialWidth st app) (initialHeight st app).
Proof.
  intros -> (Hx1 & Hy1 & Hx2 & Hy2) Hw Hh.
  unfold initial. set (area := primaryAvailable st app) in *.
  assert (Wa : width area = x2 area - x1 area + 1)
    by (unfold width, small in *; unwrap; lia).
  assert (Ha : height area = y2 area - y1 area + 1)
    by (unfold height, small in *; unwrap; lia).
  split; [exact Wa|]. split; [exact Ha|].
  set (iw := initialWidth st app) in *.
  set (ih := initialHeight st app) in *.
  set (wa := width area) in *. set (ha := height area) in *.
  pose proof (quot2_bounds (wa - iw)) as Qw.
  pose proof (quot2_bounds (ha - ih)) as Qh.
  unfold Qt.x, Qt.y, small in *. rewrite !Int32_max_spec.
  unfold Int32.add, Int32.sub, Int32.div.
  rewrite (wrap_small (wa - iw))
    by (unfold Int32.in_range, Int32.int_min, Int32.int_max; lia).
  rewrite (wrap_small (ha - ih))
    by (unfold Int32.in_range, Int32.int_min, Int32.int_max; lia).
  rewrite (wrap_small (Z.quot (wa - iw) 2))
    by (unfold Int32.in_range, Int32.int_min, Int32.int_max; lia).
  rewrite (wrap_small (Z.quot (ha - ih) 2))
    by (unfold Int32.in_range, Int32.int_min, Int32.int_max; lia).
  rewrite (wrap_small (x1 area + Z.max (Z.quot (wa - iw) 2) 0))
    by (unfold Int32.in_range, Int32.int_min, Int32.int_max; lia).
  rewrite (wrap_small (y1 area + Z.max (Z.quot (ha - ih) 2) 0))
    by (unfold Int32.in_range, Int32.int_min, Int32.int_max; lia).
  reflexivity.
Qed.

(** C1, as amended: a saved position with [w = 0] or [h = 0], or whose
    checksum is that of no enumerated screen, or whose screen has a usable
    area narrower than the minimal width or lower than the minimal height,
    makes [countInitialGeometry] return the default rectangle on the
    primary screen.  That rectangle has the default size; on each axis it
    starts, from the near edge of the available area of the primary screen,
    at half of the room that the area leaves, or at the edge itself when
    the area leaves none: it is centred on an axis where the area is at
    least as large as the default size.  The function is total, it has no
    error result. *)
Theorem countInitialGeometry_default
    (win : MainWindow) (position : WindowPosition) (area : QRect) :
  unreconcilable st app win position ->
  area = match primaryScreen app with
         | Some primary => availableGeometry primary
         | None =>
             mkQRect 0 0 (windowDefaultWidth st) (windowDefaultHeight st)
         end ->
  smallRect area ->
  small (windowDefaultWidth st) -> small (windowDefaultHeight st) ->
  small (windowBigDefaultWidth st) -> small (windowBigDefaultHeight st) ->
  let defaultWidth :=
    if ThirdColumnByDefault app then windowBigDefaultWidth st
    else windowDefaultWidth st in
  let defaultHeight :=
    if ThirdColumnByDefault app then windowBigDefaultHeight st
    else windowDefaultHeight st in
  let r := countInitialGeometry st app win position in
  (width r = defaultWidth /\ height r = defaultHeight)
  /\ (Qt.x r = Qt.x area + Z.max (Z.quot (width area - defaultWidth) 2) 0
      /\ Qt.y r
         = Qt.y area + Z.max (Z.quot (height area - defaultHeight) 2) 0)
  /\ (defaultWidth <= width area ->
      Props.centred (Qt.x area) (width area) (Qt.x r) (width r))
  /\ (defaultHeight <= height area ->
      Props.centred (Qt.y area) (height area) (Qt.y r) (height r))
  /\ (width area < defaultWidth -> Qt.x r = Qt.x area)
  /\ (height area < defaultHeight -> Qt.y r = Qt.y area).
Proof.
  intros Hun Harea Hsmall Hdw Hdh Hbw Hbh defaultWidth defaultHeight r.
  subst r. rewrite (countInitialGeometry_initial st app win position Hun).
  assert (Hiw : initialWidth st app = defaultWidth) by reflexivity.
  assert (Hih : initialHeight st app = defaultHeight) by reflexivity.
  assert (Sw : small defaultWidth)
    by (subst defaultWidth; destruct (ThirdColumnByDefault app); assumption).
  assert (Sh : small defaultHeight)
    by (subst defaultHeight; destruct (ThirdColumnByDefault app); assumption).
  destruct (initial_place area Harea Hsmall
              ltac:(rewrite Hiw; exact Sw) ltac:(rewrite Hih; exact Sh))
    as (Wa & Ha & Hinit).
  rewrite Hinit, Hiw, Hih.
  destruct Hsmall as (Hx1 & Hy1 & Hx2 & Hy2).
  set (wa := width area) in *. set (ha := height area) in *.
  pose proof (quot2_bounds (wa - defaultWidth)) as Qw.
  pose proof (quot2_bounds (ha - defaultHeight)) as Qh.
  assert (Nw : 0 <= wa - defaultWidth ->
               2 * Z.quot (wa - defaultWidth) 2 <= wa - defaultWidth)
    by (intros H; apply (quot2_nonneg _ H)).
  assert (Nh : 0 <= ha - defaultHeight ->
               2 * Z.quot (ha - defaultHeight) 2 <= ha - defaultHeight)
    by (intros H; apply (quot2_nonneg _ H)).
  set (qw := Z.quot (wa - defaultWidth) 2) in *.
  set (qh := Z.quot (ha - defaultHeight) 2) in *.
  unfold Props.centred, mkQRect, width, height, Qt.x, Qt.y, small in *.
  cbn [x1 y1 x2 y2].
  assert (Bx : - 2 ^ 28 <= x1 area + Z.max qw 0 <= 2 ^ 29) by lia.
  assert (By : - 2 ^ 28 <= y1 area + Z.max qh 0 <= 2 ^ 29) by lia.
  set (px := x1 area + Z.max qw 0) in *.
  set (py := y1 area + Z.max qh 0) in *.
  unwrap. subst px py. repeat split; lia.
Qed.

End Default.

(** C1 on the sample desktop: a saved position without a width gets the
    default 800 x 600 in the middle of the 1920 x 1080 of the monitor. *)
Lemma countInitialGeometry_default_witness :
  countInitialGeometry Scenario.style Scenario.app Scenario.window
    (Scenario.position 40 30 0 600)
  = mkQRect 560 240 800 600
  /\ Props.centred 0 1920 560 800 /\ Props.centred 0 1080 240 600.
Proof.
  destruct (countInitialGeometry_default Scenario.style Scenario.app
              Scenario.window (Scenario.position 40 30 0 600)
              (mkQRect 0 0 1920 1080))
    as (_ & _ & Hcw & Hch & _).
  - left. reflexivity.
  - reflexivity.
  - vm_compute. repeat split; discriminate.
  - vm_compute. split; discriminate.
  - vm_compute. split; discriminate.
  - vm_compute. split; discriminate.
  - vm_compute. split; discriminate.
  - split; [reflexivity|]. split.
    + apply Hcw. vm_compute. discriminate.
    + apply Hch. vm_compute. discriminate.
Defined.

(** C1 as first stated fails: on a primary screen of 640 x 480 the
    default rectangle (0, 0, 800, 600) starts at the corner of the area
    and is not centred on it. *)
Lemma countInitialGeometry_default_counterexample :
  let position := Scenario.position 40 30 0 600 in
  let area := availableGeometry SmallDesktop.screen in
  let r :=
    countInitialGeometry Scenario.style SmallDesktop.app Scenario.window
      position in
  unreconcilable Scenario.style SmallDesktop.app Scenario.window position
  /\ r = mkQRect 0 0 800 600
  /\ ~ Props.centred (Qt.x area) (width area) (Qt.x r) (width r)
  /\ ~ Props.centred (Qt.y area) (height area) (Qt.y r) (height r).
Proof.
  cbv zeta. split; [now left|]. split; [reflexivity|].
  split; vm_compute; intros [H1 H2]; now apply H1.
Qed.

(** ** The error of the rescaling

    The factor and the products of [positionFromSettings] are rounded to
    53 bits; the lemmas below bound what the rounding can change, with the
    values of the doubles taken in the real numbers. *)
From Stdlib Require Import Reals Lra.

Section Float64Rounding.

Local Abbreviation bpow := (powerRZ 2).

Lemma bpow_pos (e : Z) : (0 < bpow e)%R.
Proof. apply powerRZ_lt. lra. Qed.

Lemma bpow_add (a b : Z) : bpow (a + b) = (bpow a * bpow b)%R.
Proof. apply powerRZ_add. lra. Qed.

Lemma bpow_IZR (k : Z) : 0 <= k -> IZR (2 ^ k) = bpow k.
Proof.
  intros Hk. destruct k as [|p|p]; [reflexivity| |lia].
  simpl powerRZ. rewrite pow_IZR, positive_nat_Z. reflexivity.
Qed.

Lemma shr_1_m (rec : shr_record) :
  0 <= shr_m rec -> shr_m (shr_1 rec) = shr_m rec / 2.
Proof.
  destruct rec as [m r s]. cbn [shr_m]. intros H.
  destruct m as [|[p|p|]|p]; cbn [shr_1 shr_m]; try lia.
  - reflexivity.
  - apply Z.div_unique with 1; lia.
  - apply Z.div_unique with 0; lia.
  - reflexivity.
Qed.

Lemma iter_shr_m (p : positive) (rec : shr_record) :
  0 <= shr_m rec ->
  shr_m (SpecFloat.iter_pos shr_1 p rec) = shr_m rec / 2 ^ Zpos p.
Proof.
  revert rec. induction p as [p IH|p IH|]; intros rec H; cbn [SpecFloat.iter_pos].
  - assert (H1 : 0 <= shr_m (shr_1 rec))
      by (rewrite shr_1_m by exact H; apply Z.div_pos; lia).
    assert (H2 : 0 <= shr_m (SpecFloat.iter_pos shr_1 p (shr_1 rec)))
      by (rewrite IH by exact H1; apply Z.div_pos; lia).
    rewrite IH, IH, shr_1_m by assumption.
    rewrite !Z.div_div by lia. f_equal.
    replace (Zpos p~1) with (1 + (Zpos p + Zpos p)) by lia.
    rewrite !Z.pow_add_r, Z.pow_1_r by lia. lia.
  - assert (H2 : 0 <= shr_m (SpecFloat.iter_pos shr_1 p rec))
      by (rewrite IH by exact H; apply Z.div_pos; lia).
    rewrite IH, IH by assumption.
    rewrite !Z.div_div by lia. f_equal.
    replace (Zpos p~0) with (Zpos p + Zpos p) by lia.
    rewrite Z.pow_add_r by lia. lia.
  - rewrite shr_1_m by exact H. reflexivity.
Qed.

Lemma digits2_unique (m : positive) (d : Z) :
  2 ^ (d - 1) <= Zpos m < 2 ^ d -> 0 < d -> Zpos (digits2_pos m) = d.
Proof.
  intros [Hlo Hhi] Hd. pose proof (digits2_bounds m) as [Dlo Dhi].
  destruct (Z.lt_trichotomy (Zpos (digits2_pos m)) d) as [H|[H|H]];
    [exfalso|exact H|exfalso].
  - assert (2 ^ Zpos (digits2_pos m) <= 2 ^ (d - 1))
      by (apply Z.pow_le_mono_r; lia).
    lia.
  - assert (2 ^ d <= 2 ^ (Zpos (digits2_pos m) - 1))
      by (apply Z.pow_le_mono_r; lia).
    lia.
Qed.

Lemma shr_m_of_loc (m : Z) (l : location) :
  shr_m (shr_record_of_loc m l) = m.
Proof. destruct l as [|[]]; reflexivity. Qed.

Lemma round_nearest_even_cases (m : Z) (l : location) :
  round_nearest_even m l = m \/ round_nearest_even m l = m + 1.
Proof.
  destruct l as [|[]]; cbn [round_nearest_even]; auto.
  destruct (Z.even m); auto.
Qed.

(** Rounding a mantissa of [53 + n] bits: the result has 53 bits and is
    the mantissa without its [n] low bits, or that plus one. *)
Lemma binary_round_aux_normal (s : bool) (m : positive) (e n : Z)
    (l : location) :
  Zpos (digits2_pos m) = 53 + n -> 0 <= n -> -1074 <= e + n <= 970 ->
  exists (m' : positive) (e' : Z),
    binary_round_aux Float64.prec Float64.emax s (Zpos m) e l
    = S754_finite s m' e'
    /\ digits2_pos m' = 53%positive
    /\ ((e' = e + n
         /\ (Zpos m' = Zpos m / 2 ^ n \/ Zpos m' = Zpos m / 2 ^ n + 1))
        \/ (e' = e + n + 1
            /\ Zpos m' = 2 ^ 52 /\ Zpos m / 2 ^ n + 1 = 2 ^ 53)).
Proof.
  intros Hd Hn He.
  pose proof (digits2_bounds m) as [Dlo Dhi]. rewrite Hd in Dlo, Dhi.
  set (q := Zpos m / 2 ^ n).
  assert (Hpow : 0 < 2 ^ n) by (apply Z.pow_pos_nonneg; lia).
  assert (Hq : 2 ^ 52 <= q < 2 ^ 53).
  { unfold q. split.
    - apply Z.div_le_lower_bound; [lia|].
      rewrite <- Z.pow_add_r by lia.
      now replace (n + 52) with (53 + n - 1) by lia.
    - apply Z.div_lt_upper_bound; [lia|].
      rewrite <- Z.pow_add_r by lia.
      now replace (n + 53) with (53 + n) by lia. }
  assert (Hfirst : exists rec1,
             shr_fexp Float64.prec Float64.emax (Zpos m) e l = (rec1, e + n)
             /\ shr_m rec1 = q).
  { unfold shr_fexp, Zdigits2, fexp, emin, Float64.prec, Float64.emax.
    rewrite Hd.
    replace (Z.max (53 + n + e - 53) (3 - 1024 - 53) - e) with n by lia.
    destruct n as [|p|p]; [| |lia].
    - exists (shr_record_of_loc (Zpos m) l). split.
      + cbn [shr]. f_equal. lia.
      + rewrite shr_m_of_loc. unfold q. now rewrite Z.pow_0_r, Z.div_1_r.
    - exists (SpecFloat.iter_pos shr_1 p (shr_record_of_loc (Zpos m) l)). split.
      + reflexivity.
      + rewrite iter_shr_m by (rewrite shr_m_of_loc; lia).
        now rewrite shr_m_of_loc. }
  destruct Hfirst as (rec1 & E1 & Hm1).
  unfold binary_round_aux. rewrite E1, Hm1.
  change (2 ^ 52) with 4503599627370496 in *.
  change (2 ^ 53) with 9007199254740992 in *.
  destruct (round_nearest_even_cases q (loc_of_shr_record rec1)) as [R|R];
    rewrite R.
  - destruct q as [|pq|pq] eqn:Eq; try lia.
    assert (Dq : Zpos (digits2_pos pq) = 53)
      by (apply digits2_unique; [simpl; lia|lia]).
    unfold shr_fexp, Zdigits2, fexp, emin, Float64.prec, Float64.emax.
    rewrite Dq.
    replace (Z.max (53 + (e + n) - 53) (3 - 1024 - 53) - (e + n))
      with 0 by lia.
    cbn [shr shr_record_of_loc shr_m].
    replace (e + n <=? 1024 - 53) with true
      by (symmetry; apply Z.leb_le; lia).
    exists pq, (e + n). repeat split; [lia|]. left. split; auto.
  - destruct (Z.eq_dec (q + 1) 9007199254740992) as [Hc|Hc].
    + rewrite Hc.
      unfold shr_fexp, Zdigits2, fexp, emin, Float64.prec, Float64.emax.
      change (Zpos (digits2_pos 9007199254740992)) with 54.
      replace (Z.max (54 + (e + n) - 53) (3 - 1024 - 53) - (e + n))
        with 1 by lia.
      cbn [shr shr_record_of_loc shr_m SpecFloat.iter_pos shr_1].
      replace (e + n + 1 <=? 1024 - 53) with true
        by (symmetry; apply Z.leb_le; lia).
      exists 4503599627370496%positive, (e + n + 1).
      repeat split. right. repeat split.
    + destruct (q + 1) as [|pq|pq] eqn:Eq; try lia.
      assert (Dq : Zpos (digits2_pos pq) = 53)
        by (apply digits2_unique; [simpl; lia|lia]).
      unfold shr_fexp, Zdigits2, fexp, emin, Float64.prec, Float64.emax.
      rewrite Dq.
      replace (Z.max (53 + (e + n) - 53) (3 - 1024 - 53) - (e + n))
        with 0 by lia.
      cbn [shr shr_record_of_loc shr_m].
      replace (e + n <=? 1024 - 53) with true
        by (symmetry; apply Z.leb_le; lia).
      exists pq, (e + n). repeat split; [lia|]. left. split; auto.
Qed.

(** The same in value: rounding a value [X] that lies between the mantissa
    [m] and [m + 1] (in units of [2^e]) gives a double within a relative
    error of [2^-52] of [X]. *)
Lemma binary_round_aux_error (s : bool) (m : positive) (e n : Z)
    (l : location) (X : R) :
  Zpos (digits2_pos m) = 53 + n -> 0 <= n -> -1074 <= e + n <= 970 ->
  (IZR (Zpos m) * bpow e <= X <= (IZR (Zpos m) + 1) * bpow e)%R ->
  exists (m' : positive) (e' : Z),
    binary_round_aux Float64.prec Float64.emax s (Zpos m) e l
    = S754_finite s m' e'
    /\ digits2_pos m' = 53%positive
    /\ e + n <= e' <= e + n + 1
    /\ (X * (1 - / 4503599627370496) <= IZR (Zpos m') * bpow e'
        <= X * (1 + / 4503599627370496))%R.
Proof.
  intros Hd Hn He HX.
  destruct (binary_round_aux_normal s m e n l Hd Hn He)
    as (m' & e' & E & D & Hcase).
  exists m', e'. split; [exact E|]. split; [exact D|].
  split; [destruct Hcase as [[-> _]|[-> _]]; lia|].
  pose proof (digits2_bounds m) as [Dlo _]. rewrite Hd in Dlo.
  assert (Hpow : 0 < 2 ^ n) by (apply Z.pow_pos_nonneg; lia).
  pose proof (Z.mul_div_le (Zpos m) (2 ^ n) Hpow) as Qlo.
  pose proof (Z.mul_succ_div_gt (Zpos m) (2 ^ n) Hpow) as Qhi.
  assert (Hq : 2 ^ 52 <= Zpos m / 2 ^ n).
  { apply Z.div_le_lower_bound; [lia|].
    rewrite <- Z.pow_add_r by lia.
    now replace (n + 52) with (53 + n - 1) by lia. }
  set (q := Zpos m / 2 ^ n) in *.
  change (2 ^ 52) with 4503599627370496 in Hq.
  pose proof (bpow_pos e) as Be.
  assert (Pn : (0 < IZR (2 ^ n))%R) by (apply IZR_lt; lia).
  set (u := (bpow e * IZR (2 ^ n))%R).
  assert (Hu : (0 < u)%R) by (apply Rmult_lt_0_compat; assumption).
  assert (Eu : bpow (e + n) = u)
    by (unfold u; rewrite bpow_add, bpow_IZR by lia; reflexivity).
  assert (Ha : (IZR q * u <= IZR (Zpos m) * bpow e)%R).
  { unfold u. replace (IZR q * (bpow e * IZR (2 ^ n)))%R
      with (IZR (2 ^ n * q) * bpow e)%R by (rewrite mult_IZR; ring).
    apply Rmult_le_compat_r; [lra|]. apply IZR_le. lia. }
  assert (Hb : ((IZR (Zpos m) + 1) * bpow e <= (IZR q + 1) * u)%R).
  { unfold u. replace ((IZR q + 1) * (bpow e * IZR (2 ^ n)))%R
      with (IZR (2 ^ n * Z.succ q) * bpow e)%R
      by (rewrite mult_IZR, succ_IZR; ring).
    apply Rmult_le_compat_r; [lra|].
    rewrite <- (plus_IZR (Zpos m) 1). apply IZR_le. lia. }
  assert (Hc : (4503599627370496 * u <= IZR q * u)%R).
  { apply Rmult_le_compat_r; [lra|]. apply IZR_le. exact Hq. }
  assert (Hv : (IZR q * u <= IZR (Zpos m') * bpow e'
                <= (IZR q + 1) * u)%R).
  { destruct Hcase as [(-> & [Hm'|Hm'])|(-> & Hm' & Hcarry)];
      rewrite Hm'.
    - rewrite Eu. lra.
    - rewrite Eu, plus_IZR. lra.
    - replace (e + n + 1) with ((e + n) + 1) by lia.
      rewrite bpow_add, Eu.
      change (2 ^ 53) with 9007199254740992 in Hcarry.
      replace q with 9007199254740991 by lia.
      change (2 ^ 52) with 4503599627370496.
      change (bpow 1) with (2 * 1)%R. lra. }
  set (A := (IZR q * u)%R) in *.
  replace ((IZR q + 1) * u)%R with (A + u)%R in * by (unfold A; ring).
  lra.
Qed.

(** The quotient of two doubles with full mantissas. *)
Lemma div_error (s1 s2 : bool) (m1 m2 : positive) (e1 e2 : Z) :
  digits2_pos m1 = 53%positive -> digits2_pos m2 = 53%positive ->
  -1021 <= e1 - e2 <= 1022 ->
  exists (m' : positive) (e' : Z),
    Float64.div (S754_finite s1 m1 e1) (S754_finite s2 m2 e2)
    = S754_finite (xorb s1 s2) m' e'
    /\ digits2_pos m' = 53%positive
    /\ e1 - e2 - 53 <= e' <= e1 - e2 - 51
    /\ (let X := (IZR (Zpos m1) * bpow e1 / (IZR (Zpos m2) * bpow e2))%R in
        X * (1 - / 4503599627370496) <= IZR (Zpos m') * bpow e'
        <= X * (1 + / 4503599627370496))%R.
Proof.
  intros Hd1 Hd2 He.
  pose proof (digits2_bounds m1) as [L1 U1].
  pose proof (digits2_bounds m2) as [L2 U2].
  rewrite Hd1 in L1, U1. rewrite Hd2 in L2, U2.
  change (2 ^ (53 - 1)) with 4503599627370496 in *.
  change (2 ^ 53) with 9007199254740992 in *.
  unfold Float64.div, SFdiv, SFdiv_core_binary, Zdigits2.
  rewrite Hd1, Hd2. unfold fexp, emin, Float64.prec, Float64.emax.
  replace (Z.min (Z.max (53 + e1 - (53 + e2) - 53) (3 - 1024 - 53))
                 (e1 - e2))
    with (e1 - e2 - 53) by lia.
  replace (e1 - e2 - (e1 - e2 - 53)) with 53 by lia.
  rewrite Z.shiftl_mul_pow2 by lia.
  change (2 ^ 53) with 9007199254740992.
  destruct (Z.div_eucl (Zpos m1 * 9007199254740992) (Zpos m2))
    as [q r] eqn:Hdiv.
  assert (Hq : q = Zpos m1 * 9007199254740992 / Zpos m2).
  { change q with (fst (q, r)). now rewrite <- Hdiv. }
  clear Hdiv.
  pose proof (Z.mul_div_le (Zpos m1 * 9007199254740992) (Zpos m2)
                ltac:(lia)) as Qlo.
  pose proof (Z.mul_succ_div_gt (Zpos m1 * 9007199254740992) (Zpos m2)
                ltac:(lia)) as Qhi.
  rewrite <- Hq in Qlo, Qhi.
  assert (Hqb : 4503599627370496 <= q < 18014398509481984) by nia.
  destruct q as [|pq|pq]; try lia.
  set (n := if Zpos pq <? 9007199254740992 then 0 else 1).
  assert (Hn : 0 <= n <= 1) by (unfold n; destruct (_ <? _); lia).
  assert (Dq : Zpos (digits2_pos pq) = 53 + n).
  { apply digits2_unique; [|lia]. unfold n.
    destruct (Z.ltb_spec (Zpos pq) 9007199254740992); simpl; lia. }
  destruct (binary_round_aux_error (xorb s1 s2) pq (e1 - e2 - 53) n
              (new_location (Zpos m2) r)
              (IZR (Zpos m1) * bpow e1 / (IZR (Zpos m2) * bpow e2))%R
              Dq ltac:(lia) ltac:(lia))
    as (m' & e' & E & D & Hrange & Hval).
  { pose proof (bpow_pos e2) as B2.
    pose proof (bpow_pos (e1 - e2 - 53)) as B.
    assert (P2 : (0 < IZR (Zpos m2))%R) by (apply IZR_lt; lia).
    set (Y := (IZR (Zpos m1 * 9007199254740992) / IZR (Zpos m2))%R).
    assert (HY : (Y * IZR (Zpos m2))%R
                 = IZR (Zpos m1 * 9007199254740992))
      by (unfold Y; field; lra).
    replace (IZR (Zpos m1) * bpow e1 / (IZR (Zpos m2) * bpow e2))%R
      with (Y * bpow (e1 - e2 - 53))%R.
    2:{ unfold Y. replace e1 with ((e1 - e2 - 53) + (e2 + 53)) at 2 by lia.
        rewrite !bpow_add, mult_IZR, <- (bpow_IZR 53) by lia.
        change (2 ^ 53) with 9007199254740992.
        field. lra. }
    assert (Ylo : (IZR (Zpos pq) <= Y)%R).
    { apply Rmult_le_reg_r with (IZR (Zpos m2)); [exact P2|].
      rewrite HY, <- mult_IZR. apply IZR_le. lia. }
    assert (Yhi : (Y <= IZR (Zpos pq) + 1)%R).
    { apply Rmult_le_reg_r with (IZR (Zpos m2)); [exact P2|].
      rewrite HY, <- (plus_IZR (Zpos pq) 1), <- mult_IZR.
      apply IZR_le. lia. }
    split; apply Rmult_le_compat_r; lra. }
  exists m', e'. split; [exact E|]. split; [exact D|].
  split; [lia|exact Hval].
Qed.

(** The product of two doubles with full mantissas. *)
Lemma mul_error (s1 s2 : bool) (m1 m2 : positive) (e1 e2 : Z) :
  digits2_pos m1 = 53%positive -> digits2_pos m2 = 53%positive ->
  -1126 <= e1 + e2 <= 917 ->
  exists (m' : positive) (e' : Z),
    Float64.mul (S754_finite s1 m1 e1) (S754_finite s2 m2 e2)
    = S754_finite (xorb s1 s2) m' e'
    /\ digits2_pos m' = 53%positive
    /\ (let X := (IZR (Zpos m1) * bpow e1 * (IZR (Zpos m2) * bpow e2))%R in
        X * (1 - / 4503599627370496) <= IZR (Zpos m') * bpow e'
        <= X * (1 + / 4503599627370496))%R.
Proof.
  intros Hd1 Hd2 He.
  pose proof (digits2_bounds m1) as [L1 U1].
  pose proof (digits2_bounds m2) as [L2 U2].
  rewrite Hd1 in L1, U1. rewrite Hd2 in L2, U2.
  change (2 ^ (53 - 1)) with 4503599627370496 in *.
  change (2 ^ 53) with 9007199254740992 in *.
  unfold Float64.mul, SFmul.
  set (n := if Zpos (m1 * m2) <? 2 ^ 105 then 52 else 53).
  assert (Hn : 52 <= n <= 53) by (unfold n; destruct (_ <? _); lia).
  assert (Hp : 2 ^ 104 <= Zpos (m1 * m2) < 2 ^ 106).
  { rewrite Pos2Z.inj_mul.
    change (2 ^ 104) with (4503599627370496 * 4503599627370496).
    change (2 ^ 106) with (9007199254740992 * 9007199254740992). nia. }
  assert (Dp : Zpos (digits2_pos (m1 * m2)) = 53 + n).
  { apply digits2_unique; [|lia]. unfold n.
    destruct (Z.ltb_spec (Zpos (m1 * m2)) (2 ^ 105)); simpl Z.sub;
      cbn [Z.add]; lia. }
  destruct (binary_round_aux_error (xorb s1 s2) (m1 * m2) (e1 + e2) n
              loc_Exact
              (IZR (Zpos m1) * bpow e1 * (IZR (Zpos m2) * bpow e2))%R
              Dp ltac:(lia) ltac:(lia))
    as (m' & e' & E & D & _ & Hval).
  { pose proof (bpow_pos (e1 + e2)) as B.
    rewrite Pos2Z.inj_mul, mult_IZR, bpow_add. split; [right; ring|].
    rewrite <- bpow_add.
    replace (IZR (Zpos m1) * bpow e1 * (IZR (Zpos m2) * bpow e2))%R
      with (IZR (Zpos m1) * IZR (Zpos m2) * bpow (e1 + e2))%R
      by (rewrite bpow_add; ring).
    lra. }
  exists m', e'. split; [exact E|]. split; [exact D|exact Hval].
Qed.

(** The conversion back to [int] of a double below [2^31]. *)
Lemma to_int_finite (s : bool) (m : positive) (e : Z) :
  (IZR (Zpos m) * bpow e < 2147483648)%R ->
  exists t : Z,
    0 <= t
    /\ Float64.to_int (S754_finite s m e) = (if s then - t else t)
    /\ (IZR t <= IZR (Zpos m) * bpow e < IZR t + 1)%R.
Proof.
  intros Hlt. unfold Float64.to_int, Float64.truncate.
  set (t := if e >=? 0 then Zpos m * 2 ^ e else Zpos m / 2 ^ (- e)).
  assert (Ht : 0 <= t
               /\ (IZR t <= IZR (Zpos m) * bpow e < IZR t + 1)%R).
  { unfold t. destruct (e >=? 0) eqn:Ee.
    - rewrite Z.geb_leb in Ee. apply Z.leb_le in Ee.
      split; [apply Z.mul_nonneg_nonneg; [lia|apply Z.pow_nonneg; lia]|].
      rewrite mult_IZR, bpow_IZR by lia. lra.
    - rewrite Z.geb_leb in Ee. apply Z.leb_gt in Ee.
      assert (Hpow : 0 < 2 ^ (- e)) by (apply Z.pow_pos_nonneg; lia).
      pose proof (Z.mul_div_le (Zpos m) (2 ^ (- e)) Hpow) as Qlo.
      pose proof (Z.mul_succ_div_gt (Zpos m) (2 ^ (- e)) Hpow) as Qhi.
      split; [apply Z.div_pos; lia|].
      set (q := Zpos m / 2 ^ (- e)) in *.
      assert (PK : (0 < IZR (2 ^ (- e)))%R) by (apply IZR_lt; lia).
      assert (EK : (IZR (Zpos m) * bpow e * IZR (2 ^ (- e)))%R
                   = IZR (Zpos m)).
      { rewrite bpow_IZR by lia. rewrite Rmult_assoc, <- bpow_add.
        replace (e + - e) with 0 by lia. simpl. ring. }
      split.
      + apply Rmult_le_reg_r with (IZR (2 ^ (- e))); [exact PK|].
        rewrite EK, <- mult_IZR. apply IZR_le. lia.
      + apply Rmult_lt_reg_r with (IZR (2 ^ (- e))); [exact PK|].
        rewrite EK, <- (plus_IZR q 1), <- mult_IZR. apply IZR_lt. lia. }
  destruct Ht as [Ht0 Htv]. exists t. split; [exact Ht0|].
  split; [|exact Htv].
  assert (Hlt' : t < 2147483648).
  { apply lt_IZR. lra. }
  unfold Int32.int_min, Int32.int_max.
  destruct s.
  - replace (- 2 ^ 31 <=? - t) with true
      by (symmetry; apply Z.leb_le; lia).
    replace (- t <=? 2 ^ 31 - 1) with true
      by (symmetry; apply Z.leb_le; lia).
    reflexivity.
  - replace (- 2 ^ 31 <=? t) with true
      by (symmetry; apply Z.leb_le; lia).
    replace (t <=? 2 ^ 31 - 1) with true
      by (symmetry; apply Z.leb_le; lia).
    reflexivity.
Qed.

Lemma of_int_value (p k : positive) :
  (IZR (Zpos (Pos.iter xO p k)) * bpow (- Zpos k))%R = IZR (Zpos p).
Proof.
  rewrite Zpos_iter, mult_IZR, bpow_IZR by lia.
  rewrite Rmult_assoc, <- bpow_add.
  replace (Zpos k + - Zpos k) with 0 by lia. simpl. ring.
Qed.

(** [v *= c / float64(s)] in magnitude and sign: the magnitude [t] of the
    result is at most one below the exact quotient. *)
Lemma mulAssign_magnitude (v c s : Z) :
  Int32.in_range v -> Int32.in_range c -> Int32.in_range s ->
  v <> 0 -> c <> 0 -> s <> 0 ->
  Z.abs s <= 65536 ->
  Z.abs (v * c) < 2147483648 * Z.abs s ->
  exists t : Z,
    0 <= t
    /\ mulAssign v (Float64.div (Float64.of_int c) (Float64.of_int s))
       = (if xorb (v <? 0) (xorb (c <? 0) (s <? 0)) then - t else t)
    /\ t * Z.abs s <= Z.abs (v * c) <= t * Z.abs s + Z.abs s.
Proof.
  intros Rv Rc Rs Hv Hc Hs Hsmall Hfit.
  destruct (of_int_nonzero v Hv Rv) as (sv & pv & kv & Ev & Kv & Ov).
  destruct (of_int_nonzero c Hc Rc) as (sc & pc & kc & Ec & Kc & Oc).
  destruct (of_int_nonzero s Hs Rs) as (ss & ps & ks & Es & Ks & Os).
  pose proof (Pos2Z.is_pos (digits2_pos pv)).
  pose proof (Pos2Z.is_pos (digits2_pos pc)).
  pose proof (Pos2Z.is_pos (digits2_pos ps)).
  assert (Av : Z.abs v = Zpos pv) by (destruct sv; subst v; reflexivity).
  assert (Ac : Z.abs c = Zpos pc) by (destruct sc; subst c; reflexivity).
  assert (As : Z.abs s = Zpos ps) by (destruct ss; subst s; reflexivity).
  assert (Sv : (v <? 0) = sv) by (destruct sv; subst v; reflexivity).
  assert (Sc : (c <? 0) = sc) by (destruct sc; subst c; reflexivity).
  assert (Ss : (s <? 0) = ss) by (destruct ss; subst s; reflexivity).
  rewrite Z.abs_mul, Av, Ac in *. rewrite As in *. rewrite Sv, Sc, Ss.
  clear Av Ac As Sv Sc Ss Ev Ec Es Rv Rc Rs Hv Hc Hs.
  rewrite Oc, Os.
  destruct (div_error sc ss (Pos.iter xO pc kc) (Pos.iter xO ps ks)
              (- Zpos kc) (- Zpos ks))
    as (mF & eF & EF & DF & HeF & HvalF);
    [rewrite digits2_iter; lia|rewrite digits2_iter; lia|lia|].
  cbv zeta in HvalF. rewrite !of_int_value in HvalF.
  unfold mulAssign. rewrite Ov, EF.
  destruct (mul_error sv (xorb sc ss) (Pos.iter xO pv kv) mF
              (- Zpos kv) eF)
    as (mP & eP & EP & DP & HvalP);
    [rewrite digits2_iter; lia|exact DF|lia|].
  cbv zeta in HvalP. rewrite of_int_value in HvalP.
  rewrite EP.
  set (F := (IZR (Zpos mF) * bpow eF)%R) in *.
  set (P := (IZR (Zpos mP) * bpow eP)%R) in *.
  set (rV := IZR (Zpos pv)) in *.
  set (rC := IZR (Zpos pc)) in *.
  set (rS := IZR (Zpos ps)) in *.
  assert (PV : (1 <= rV)%R) by (apply IZR_le; lia).
  assert (PC : (1 <= rC)%R) by (apply IZR_le; lia).
  assert (PS : (1 <= rS)%R) by (apply IZR_le; lia).
  assert (US : (rS <= 65536)%R) by (apply IZR_le; lia).
  set (T := (rV * (rC / rS))%R).
  assert (ET : (T * rS)%R = IZR (Zpos pv * Zpos pc)).
  { unfold T. rewrite mult_IZR. fold rV rC. field. lra. }
  assert (UN : (IZR (Zpos pv * Zpos pc) + 1 <= 2147483648 * rS)%R).
  { unfold rS. rewrite <- (plus_IZR _ 1), <- mult_IZR.
    apply IZR_le. lia. }
  set (N := IZR (Zpos pv * Zpos pc)) in *.
  assert (PN : (1 <= N)%R) by (apply IZR_le; lia).
  assert (PT : (0 < T)%R).
  { apply Rmult_lt_reg_r with rS; [lra|]. rewrite ET. lra. }
  assert (UT : (T <= 2147483648 - / 65536)%R).
  { apply Rmult_le_reg_r with rS; [lra|]. rewrite ET. lra. }
  assert (HG : (T * (1 - / 4503599627370496) <= rV * F
                <= T * (1 + / 4503599627370496))%R).
  { unfold T. destruct HvalF as [Flo Fhi]. split.
    - replace (rV * (rC / rS) * (1 - / 4503599627370496))%R
        with (rV * (rC / rS * (1 - / 4503599627370496)))%R by ring.
      apply Rmult_le_compat_l; lra.
    - replace (rV * (rC / rS) * (1 + / 4503599627370496))%R
        with (rV * (rC / rS * (1 + / 4503599627370496)))%R by ring.
      apply Rmult_le_compat_l; lra. }
  set (G := (rV * F)%R) in *.
  destruct HG as [Glo Ghi]. destruct HvalP as [Plo Phi].
  destruct (to_int_finite (xorb sv (xorb sc ss)) mP eP)
    as (t & Ht0 & Eto & Tlo & Thi).
  { fold P. lra. }
  fold P in Tlo, Thi.
  exists t. split; [exact Ht0|]. split; [exact Eto|].
  pose proof (Rmult_le_compat_r rS _ _ ltac:(lra) Tlo) as M1.
  pose proof (Rmult_lt_compat_r rS _ _ ltac:(lra) Thi) as M2.
  pose proof (Rmult_le_compat_r rS _ _ ltac:(lra) Plo) as M3.
  pose proof (Rmult_le_compat_r rS _ _ ltac:(lra) Phi) as M4.
  pose proof (Rmult_le_compat_r rS _ _ ltac:(lra) Glo) as M5.
  pose proof (Rmult_le_compat_r rS _ _ ltac:(lra) Ghi) as M6.
  replace (T * (1 - / 4503599627370496) * rS)%R
    with (N * (1 - / 4503599627370496))%R in M5 by (rewrite <- ET; ring).
  replace (T * (1 + / 4503599627370496) * rS)%R
    with (N * (1 + / 4503599627370496))%R in M6 by (rewrite <- ET; ring).
  replace (G * (1 - / 4503599627370496) * rS)%R
    with (G * rS * (1 - / 4503599627370496))%R in M3 by ring.
  replace (G * (1 + / 4503599627370496) * rS)%R
    with (G * rS * (1 + / 4503599627370496))%R in M4 by ring.
  replace ((IZR t + 1) * rS)%R with (IZR t * rS + rS)%R in M2 by ring.
  set (a := (IZR t * rS)%R) in *.
  set (b := (P * rS)%R) in *.
  set (g := (G * rS)%R) in *.
  split.
  - apply Z.lt_succ_r. apply lt_IZR.
    rewrite succ_IZR, mult_IZR. fold rS a N. lra.
  - assert (Zpos pv * Zpos pc - 1 < t * Zpos ps + Zpos ps); [|lia].
    apply lt_IZR.
    rewrite minus_IZR, plus_IZR, (mult_IZR t). fold rS a N. lra.
Qed.

Lemma quot_signs (N S : Z) (b1 b2 : bool) :
  0 <= N -> 0 < S ->
  Z.quot (if b1 then - N else N) (if b2 then - S else S)
  = (if xorb b1 b2 then - (N / S) else N / S)
  /\ (N mod S = 0 ->
      Z.rem (if b1 then - N else N) (if b2 then - S else S) = 0).
Proof.
  intros HN HS.
  pose proof (Z.quot_div_nonneg N S HN HS) as Q.
  pose proof (Z.rem_mod_nonneg N S HN HS) as R.
  destruct b1, b2; cbn [xorb];
    rewrite ?Z.quot_opp_opp, ?Z.quot_opp_l, ?Z.quot_opp_r,
            ?Z.rem_opp_opp, ?Z.rem_opp_l, ?Z.rem_opp_r by lia;
    rewrite Q, R; split; try reflexivity; lia.
Qed.

Lemma mulAssign_zero (v c s : Z) :
  v = 0 \/ c = 0 ->
  Int32.in_range v -> Int32.in_range c -> Int32.in_range s -> s <> 0 ->
  mulAssign v (Float64.div (Float64.of_int c) (Float64.of_int s)) = 0.
Proof.
  intros Hz Rv Rc Rs Hs.
  destruct (of_int_nonzero s Hs Rs) as (ss & ps & ks & _ & Ks & Os).
  unfold mulAssign. rewrite Os.
  destruct (Z.eq_dec c 0) as [->|Hc].
  - cbn [Float64.of_int binary_normalize Float64.div SFdiv].
    destruct (Z.eq_dec v 0) as [->|Hv]; [reflexivity|].
    destruct (of_int_nonzero v Hv Rv) as (sv & pv & kv & _ & _ & Ov).
    rewrite Ov. reflexivity.
  - destruct Hz as [->|Hz]; [|contradiction].
    destruct (of_int_nonzero c Hc Rc) as (sc & pc & kc & _ & Kc & Oc).
    pose proof (Pos2Z.is_pos (digits2_pos pc)).
    pose proof (Pos2Z.is_pos (digits2_pos ps)).
    rewrite Oc.
    destruct (div_error sc ss (Pos.iter xO pc kc) (Pos.iter xO ps ks)
                (- Zpos kc) (- Zpos ks))
      as (mF & eF & EF & _);
      [rewrite digits2_iter; lia|rewrite digits2_iter; lia|lia|].
    rewrite EF. reflexivity.
Qed.

(** [v *= c / float64(s)] gives the exact quotient truncated towards
    zero, or the integer before it where the quotient is whole. *)
Lemma mulAssign_scaled (v c s : Z) :
  Int32.in_range v -> Int32.in_range c -> s <> 0 ->
  Z.abs s <= 65536 ->
  Z.abs (v * c) < 2 ^ 31 * Z.abs s ->
  scaled v c s
    (mulAssign v (Float64.div (Float64.of_int c) (Float64.of_int s))).
Proof.
  intros Rv Rc Hs Hsmall Hfit.
  assert (Rs : Int32.in_range s)
    by (unfold Int32.in_range, Int32.int_min, Int32.int_max; lia).
  change (2 ^ 31) with 2147483648 in Hfit.
  destruct (Z.eq_dec v 0) as [Hv|Hv];
    [|destruct (Z.eq_dec c 0) as [Hc|Hc]].
  - rewrite mulAssign_zero by auto. left. unfold exactScaled.
    subst v. now rewrite Z.mul_0_l, Z.quot_0_l.
  - rewrite mulAssign_zero by auto. left. unfold exactScaled.
    subst c. now rewrite Z.mul_0_r, Z.quot_0_l.
  - destruct (mulAssign_magnitude v c s Rv Rc Rs Hv Hc Hs Hsmall Hfit)
      as (t & Ht0 & -> & Tlo & Thi).
    rewrite Z.abs_mul in Tlo, Thi.
    set (num := Z.abs v * Z.abs c) in *. set (den := Z.abs s) in *.
    assert (Hnum : 0 <= num) by (unfold num; lia).
    assert (Hden : 0 < den) by (unfold den; lia).
    assert (Evc : v * c = if xorb (v <? 0) (c <? 0) then - num else num).
    { unfold num.
      destruct (Z.ltb_spec v 0), (Z.ltb_spec c 0); cbn [xorb];
        rewrite ?(Z.abs_eq v), ?(Z.abs_neq v), ?(Z.abs_eq c),
                ?(Z.abs_neq c) by lia; ring. }
    assert (Es : s = if s <? 0 then - den else den).
    { unfold den. destruct (Z.ltb_spec s 0); lia. }
    destruct (quot_signs num den (xorb (v <? 0) (c <? 0)) (s <? 0)
                Hnum Hden) as [Q R].
    rewrite <- Evc, <- Es in Q, R.
    pose proof (Z.mul_div_le num den Hden) as Dlo.
    pose proof (Z.mul_succ_div_gt num den Hden) as Dhi.
    rewrite <- xorb_assoc.
    unfold scaled, exactScaled. rewrite Q.
    set (T := num / den) in *.
    assert (HT : T = t \/ T = t + 1) by nia.
    destruct HT as [HT|HT].
    + left. now rewrite HT.
    + right. split.
      * apply R. assert (E : num = T * den) by nia.
        rewrite E. apply Z.mod_mul. lia.
      * destruct (xorb (xorb (v <? 0) (c <? 0)) (s <? 0)).
        -- rewrite Z.sgn_neg by lia. lia.
        -- rewrite Z.sgn_pos by lia. lia.
Qed.

End Float64Rounding.

(** C3, as amended: [positionFromSettings] returns the saved position as
    it is when its scale is 0.  Otherwise it keeps the checksum of the
    monitor, the maximized flag and the scale, and multiplies [x], [y],
    [w] and [h] by the factor [cScale / scale] in double precision,
    converting back to [int]: for a saved scale of at most 65536 in
    magnitude and values whose exact product with the factor fits an
    [int], each result is the exact product [v * cScale / scale] truncated
    towards zero, or, only where that product is a whole number, the
    integer next to it on the side of zero. *)
Theorem positionFromSettings_scales
    (app : Application) (position : WindowPosition) :
  (scale position = 0 -> positionFromSettings app position = position)
  /\ (scale position <> 0 ->
      Int32.in_range (cScale app) ->
      Z.abs (scale position) <= 65536 ->
      fits app position (x position) -> fits app position (y position) ->
      fits app position (w position) -> fits app position (h position) ->
      let result := positionFromSettings app position in
      moncrc result = moncrc position
      /\ maximized result = maximized position
      /\ scale result = scale position
      /\ scaled (x position) (cScale app) (scale position) (x result)
      /\ scaled (y position) (cScale app) (scale position) (y result)
      /\ scaled (w position) (cScale app) (scale position) (w result)
      /\ scaled (h position) (cScale app) (scale position) (h result)).
Proof.
  unfold positionFromSettings. split.
  - intros ->. reflexivity.
  - intros Hs Hc Hsmall [Rx Fx] [Ry Fy] [Rw Fw] [Rh Fh].
    apply Z.eqb_neq in Hs as Hs'. rewrite Hs'.
    cbn [moncrc maximized scale x y w h].
    repeat split; try reflexivity; now apply mulAssign_scaled.
Qed.

(** C3 on two saved positions: one without a scale, which is returned as
    it is, and one saved at 110% and read at 150%. *)
Lemma positionFromSettings_scales_witness :
  positionFromSettings Scenario.app
    {| moncrc := 0; maximized := 0; scale := 0;
       x := 300; y := 150; w := 1200; h := 900 |}
  = {| moncrc := 0; maximized := 0; scale := 0;
       x := 300; y := 150; w := 1200; h := 900 |}
  /\ (let result :=
        positionFromSettings HighDpi.app (HighDpi.position 100 80 900 700) in
      moncrc result = Crc32.crc32 "A"
      /\ maximized result = 0
      /\ scale result = 110
      /\ scaled 100 150 110 (x result)
      /\ scaled 80 150 110 (y result)
      /\ scaled 900 150 110 (w result)
      /\ scaled 700 150 110 (h result)).
Proof.
  split.
  - apply (proj1 (positionFromSettings_scales Scenario.app
                    {| moncrc := 0; maximized := 0; scale := 0;
                       x := 300; y := 150; w := 1200; h := 900 |})).
    reflexivity.
  - apply (proj2 (positionFromSettings_scales HighDpi.app
                    (HighDpi.position 100 80 900 700)));
      vm_compute; repeat split; discriminate.
Defined.

(** C3 as first stated fails: the result is not always the value times
    the factor.  The value 11 saved at 110% and read at 150% is 15
    exactly, and what comes back is 14, since the double nearest to
    150/110 lies below it. *)
Lemma positionFromSettings_scales_counterexample :
  let saved := HighDpi.position 11 22 1100 770 in
  x saved * cScale HighDpi.app = 15 * scale saved
  /\ exactScaled (x saved) (cScale HighDpi.app) (scale saved) = 15
  /\ x (positionFromSettings HighDpi.app saved) = 14.
Proof. vm_compute. repeat split. Qed.
